(** * awsflow.workflow_definition

    A shallow embedding of [lib/awsflow/workflow_definition.py]: the metaclass
    [_WorkflowDefinitionMeta], whose [__init__] catalogs the signal handlers
    and the workflow entry points of every class of the workflow-definition
    hierarchy, and the instance model of [WorkflowDefinition].

    Python objects that the code mutates and shares are kept in an explicit
    store: class objects, the dict objects bound to [_workflow_signals] and
    [_workflow_types], and the workflow-type descriptors.  A class attribute
    holds the address of a dict object, so two classes that reach the same
    dict through attribute lookup see each other's updates, as in Python.

    The metaclass is installed with [__metaclass__], so the semantics is that
    of Python 2: [__init__] runs once for [WorkflowDefinition] and once for
    every class derived from it, after [type.__new__] has made the class
    object.  [__init__] is given twice.  [meta_init] takes the members of a
    class body as the classifier makes them: a [signal_type] has a [name], a
    [workflow_type] is a hashable descriptor object with [_reset_name].
    [meta_init_raw] takes any object as a member and has the exceptions of
    every attribute access that can fail; on members of the contract the two
    agree.  Descriptors are dict keys by identity.  A class body does not
    itself bind [_workflow_signals] or [_workflow_types]. *)

From stdpp Require Import gmap strings list fin_maps.

(** ** Exceptions *)

Inductive exn := AttributeError | TypeError.

Inductive result (A : Type) :=
  | Ok (a : A)
  | Raise (e : exn).
Arguments Ok {A} a.
Arguments Raise {A} e.

Global Instance result_ret : MRet result := fun _ a => Ok a.
Global Instance result_bind : MBind result := fun _ _ f m =>
  match m with
  | Ok a => f a
  | Raise e => Raise e
  end.

(** ** The objects the metaclass reads *)

(** Addresses of class objects, of dict objects and of workflow-type
    descriptors. *)
Abbreviation cls_id := nat (only parsing).
Abbreviation loc := nat (only parsing).
Abbreviation descr := nat (only parsing).

(** [func.swf_options['signal_type']]: an object with a [name]. *)
Record signal_type := SignalType { st_name : string }.

(** [func.swf_options]: only the presence of the two keys is read. *)
Record swf_options := SwfOptions {
  opt_signal_type : option signal_type;
  opt_workflow_type : option descr
}.

(** A function object: its identity, [__name__] and, when decorated,
    [swf_options]. *)
Record func_obj := Func {
  fn_id : nat;
  fn___name__ : string;
  fn_swf_options : option swf_options
}.

(** A value of the class namespace [dct]: one that has a [func] attribute,
    or anything else. *)
Inductive member :=
  | Decorated (func : func_obj)
  | Plain.

(** A class object: [__name__], its proper ancestors in method resolution
    order ([object] left out: it never carries a catalog), and the part of
    its own [__dict__] that binds the two catalog attributes. *)
Record class_obj := Class {
  c_name : string;
  c_ancestors : list cls_id;
  c_dict : gmap string loc
}.

Record state := State {
  classes : list class_obj;
  signal_dicts : list (gmap string func_obj);
  type_dicts : list (gmap descr string);
  descr_names : gmap descr string
}.

Definition init_state : state := State [] [] [] ∅.

Definition WORKFLOW_SIGNALS : string := "_workflow_signals".
Definition WORKFLOW_TYPES : string := "_workflow_types".

(** ** Attribute lookup on classes *)

Definition own_attr (st : state) (a : string) (k : cls_id) : option loc :=
  c ← classes st !! k; c_dict c !! a.

Definition mro (st : state) (cls : cls_id) : list cls_id :=
  match classes st !! cls with
  | Some c => cls :: c_ancestors c
  | None => []
  end.

(** [getattr(cls, a)]: the binding of the first class of the MRO that has
    one; [None] stands for AttributeError. *)
Definition getattr (st : state) (cls : cls_id) (a : string) : option loc :=
  head (omap (own_attr st a) (mro st cls)).

Definition hasattr (st : state) (cls : cls_id) (a : string) : bool :=
  bool_decide (is_Some (getattr st cls a)).

Definition setattr (cls : cls_id) (a : string) (l : loc) (st : state) : state :=
  State (alter (λ c, Class (c_name c) (c_ancestors c) (<[a := l]> (c_dict c)))
               cls (classes st))
        (signal_dicts st) (type_dicts st) (descr_names st).

(** The catalogs a dispatcher reads off a class. *)
Definition signal_catalog (st : state) (cls : cls_id)
  : option (gmap string func_obj) :=
  l ← getattr st cls WORKFLOW_SIGNALS; signal_dicts st !! l.

Definition types_catalog (st : state) (cls : cls_id)
  : option (gmap descr string) :=
  l ← getattr st cls WORKFLOW_TYPES; type_dicts st !! l.

(** ** Class creation: [type.__new__]

    The method resolution order of the new class is the merge of the
    resolution orders of its bases, as Python computes it for new-style
    classes before the metaclass [__init__] runs; an inconsistent order is a
    TypeError. *)

Definition in_tail (c : cls_id) (s : list cls_id) : bool :=
  bool_decide (c ∈ tail s).

Definition c3_candidate (seqs : list (list cls_id)) : option cls_id :=
  head (omap (λ s, c ← head s;
                   if forallb (λ s', negb (in_tail c s')) seqs
                   then Some c else None) seqs).

Definition drop_head (c : cls_id) (s : list cls_id) : list cls_id :=
  match s with
  | x :: s' => if decide (x = c) then s' else s
  | [] => []
  end.

Fixpoint c3_merge (fuel : nat) (seqs : list (list cls_id))
  : option (list cls_id) :=
  match filter (λ s, s ≠ []) seqs with
  | [] => Some []
  | nonempty =>
      match fuel with
      | 0 => None
      | S fuel' =>
          cand ← c3_candidate nonempty;
          rest ← c3_merge fuel' (drop_head cand <$> nonempty);
          Some (cand :: rest)
      end
  end.

Definition linearise (st : state) (bases : list cls_id)
  : option (list cls_id) :=
  mros ← mapM (λ b, if decide (b < length (classes st))
                    then Some (mro st b) else None) bases;
  c3_merge (length (concat mros) + length bases) (mros ++ [bases]).

(** The new class object gets the next address.  Of its namespace only the
    two catalog attributes are kept in the model, and a class body binds
    neither, so the namespace starts empty. *)
Definition type_new (name : string) (bases : list cls_id) (st : state)
  : result (cls_id * state) :=
  match linearise st bases with
  | None => Raise TypeError
  | Some anc =>
      Ok (length (classes st),
          State (classes st ++ [Class name anc ∅])
                (signal_dicts st) (type_dicts st) (descr_names st))
  end.

(** ** [_WorkflowDefinitionMeta.__init__] *)

(** One turn of the loop over [six.itervalues(dct)]. *)
Definition scan_step (acc : gmap string func_obj * list (descr * string))
    (val : member) : gmap string func_obj * list (descr * string) :=
  match val with
  | Decorated func =>
      match fn_swf_options func with
      | Some swf =>
          match opt_signal_type swf with
          | Some sty => (<[st_name sty := func]> acc.1, acc.2)
          | None =>
              match opt_workflow_type swf with
              | Some wt => (acc.1, acc.2 ++ [(wt, fn___name__ func)])
              | None => acc
              end
          end
      | None => acc
      end
  | Plain => acc
  end.

(** The locals [signals] and [_workflow_types] after the loop; [dct] is given
    as the sequence of values that [itervalues] yields. *)
Definition scan (dct : list member)
  : gmap string func_obj * list (descr * string) :=
  foldl scan_step (∅, []) dct.

(** What one member contributes to the two locals: the entry it adds to
    [_workflow_types], and the binding it adds to [signals]. *)
Definition entry_point_of (val : member) : option (descr * string) :=
  match val with
  | Decorated func =>
      swf ← fn_swf_options func;
      match opt_signal_type swf with
      | Some _ => None
      | None => wt ← opt_workflow_type swf; Some (wt, fn___name__ func)
      end
  | Plain => None
  end.

Definition signal_of (val : member) : option (string * func_obj) :=
  match val with
  | Decorated func =>
      swf ← fn_swf_options func;
      sty ← opt_signal_type swf;
      Some (st_name sty, func)
  | Plain => None
  end.

(** Modelled from the spec: [WorkflowType._reset_name] is not part of the
    source file; the descriptor's display name is rewritten to the name it
    is given. *)
Definition _reset_name (workflow_type : descr) (name : string)
    (names : gmap descr string) : gmap descr string :=
  <[workflow_type := name]> names.

(** The second loop: rename each descriptor and build [workflow_types]. *)
Definition register_step (cname : string)
    (acc : gmap descr string * gmap descr string) (e : descr * string)
  : gmap descr string * gmap descr string :=
  (<[e.1 := e.2]> acc.1, _reset_name e.1 cname acc.2).

Definition register_types (cname : string) (wts : list (descr * string))
    (names : gmap descr string) : gmap descr string * gmap descr string :=
  foldl (register_step cname) (∅, names) wts.

(** [if not hasattr(cls, '_workflow_signals'): setattr(cls, ..., signals)
    else: cls._workflow_signals.update(signals)].  [setattr] binds the local
    dict, a new object; [update] writes into the dict that lookup returns. *)
Definition attach_signals (cls : cls_id) (signals : gmap string func_obj)
    (st : state) : result state :=
  if negb (hasattr st cls WORKFLOW_SIGNALS) then
    Ok (setattr cls WORKFLOW_SIGNALS (length (signal_dicts st))
          (State (classes st) (signal_dicts st ++ [signals])
                 (type_dicts st) (descr_names st)))
  else
    match getattr st cls WORKFLOW_SIGNALS with
    | Some l =>
        match signal_dicts st !! l with
        | Some d =>
            Ok (State (classes st) (<[l := signals ∪ d]> (signal_dicts st))
                      (type_dicts st) (descr_names st))
        | None => Raise AttributeError
        end
    | None => Raise AttributeError
    end.

Definition attach_types (cls : cls_id) (workflow_types : gmap descr string)
    (st : state) : result state :=
  if negb (hasattr st cls WORKFLOW_TYPES) then
    Ok (setattr cls WORKFLOW_TYPES (length (type_dicts st))
          (State (classes st) (signal_dicts st)
                 (type_dicts st ++ [workflow_types]) (descr_names st)))
  else
    match getattr st cls WORKFLOW_TYPES with
    | Some l =>
        match type_dicts st !! l with
        | Some d =>
            Ok (State (classes st) (signal_dicts st)
                      (<[l := workflow_types ∪ d]> (type_dicts st))
                      (descr_names st))
        | None => Raise AttributeError
        end
    | None => Raise AttributeError
    end.

Definition set_descr_names (names : gmap descr string) (st : state) : state :=
  State (classes st) (signal_dicts st) (type_dicts st) names.

(** [__init__(cls, name, bases, dct)].  The call to the [__init__] of [type]
    changes nothing.  [cls.__name__] is read off the class object, which
    [type.__new__] has made before the call; on an address that holds no
    class the model raises. *)
Definition meta_init (cls : cls_id) (name : string) (bases : list cls_id)
    (dct : list member) (st : state) : result state :=
  let signals := (scan dct).1 in
  let _workflow_types := (scan dct).2 in
  match classes st !! cls with
  | None => Raise AttributeError
  | Some c =>
      if decide (c_name c = "WorkflowDefinition") then Ok st
      else
        st1 ← attach_signals cls signals st;
        let r := register_types (c_name c) _workflow_types (descr_names st1) in
        attach_types cls r.1 (set_descr_names r.2 st1)
  end.

(** The class statement [class name(bases): dct]. *)
Definition class_stmt (name : string) (bases : list cls_id)
    (dct : list member) (st : state) : result (cls_id * state) :=
  r ← type_new name bases st;
  st' ← meta_init r.1 name bases dct r.2;
  Ok (r.1, st').

(** A module that runs class statements one after the other. *)
Definition class_decl : Type := string * list cls_id * list member.

Definition run_classes (prog : list class_decl) (st : state) : result state :=
  foldl (λ r p, st ← r; r' ← class_stmt p.1.1 p.1.2 p.2 st; Ok r'.2)
        (Ok st) prog.

(** The store after [class WorkflowDefinition(object)] alone. *)
Definition base_state : state :=
  State [Class "WorkflowDefinition" [] ∅] [] [] ∅.

(** The stores a module can reach once the base class exists. *)
Inductive reachable : state → Prop :=
  | reach_base : reachable base_state
  | reach_class st name bases dct cls st' :
      reachable st →
      class_stmt name bases dct st = Ok (cls, st') →
      reachable st'.

(** Every catalog attribute of a class is bound to a live dict object. *)
Definition attr_in_range (c : class_obj) (a : string) (n : nat) : bool :=
  match c_dict c !! a with
  | Some l => bool_decide (l < n)
  | None => true
  end.

Definition wf_class (st : state) (c : class_obj) : bool :=
  attr_in_range c WORKFLOW_SIGNALS (length (signal_dicts st))
  && attr_in_range c WORKFLOW_TYPES (length (type_dicts st)).

Definition wf (st : state) : bool := forallb (wf_class st) (classes st).

(** A class that binds a catalog attribute in its own namespace has no
    ancestor that binds it. *)
Definition exclusive_class (st : state) (a : string) (c : class_obj) : bool :=
  match c_dict c !! a with
  | Some _ =>
      forallb (λ j, bool_decide (own_attr st a j = None)) (c_ancestors c)
  | None => true
  end.

Definition exclusive (st : state) : bool :=
  forallb (λ c, exclusive_class st WORKFLOW_SIGNALS c
                && exclusive_class st WORKFLOW_TYPES c) (classes st).

(** A resolution order in which every class is followed by exactly its own
    ancestors: the shape of a single-inheritance chain. *)
Fixpoint is_chain (st : state) (l : list cls_id) : bool :=
  match l with
  | [] => true
  | j :: rest => bool_decide (mro st j = j :: rest) && is_chain st rest
  end.

(** Every class of the store has a chain as its resolution order. *)
Definition all_chains (st : state) : Prop :=
  ∀ k, k < length (classes st) → is_chain st (mro st k).

(** The ancestors of a class were created before it. *)
Definition older (st : state) : Prop :=
  ∀ k c j, classes st !! k = Some c → j ∈ c_ancestors c → j < k.

(** No class lists [cls] among its ancestors. *)
Definition unreferenced (st : state) (cls : cls_id) : Prop :=
  ∀ k c, classes st !! k = Some c → cls ∉ c_ancestors c.

(** Two stores whose class objects have the same names and ancestors. *)
Definition same_shape (st st' : state) : Prop :=
  length (classes st') = length (classes st) ∧
  ∀ k c', classes st' !! k = Some c' →
    ∃ c, classes st !! k = Some c ∧ c_ancestors c' = c_ancestors c ∧
         c_name c' = c_name c.

(** ** [__init__] on metadata that may break the classifier's contract

    The definitions above take the members as the classifier makes them.
    Here a member is any object: its [swf_options] need not be a container,
    a [signal_type] need not have a [name], a function need not have a
    [__name__], a [workflow_type] need not have [_reset_name] nor be
    hashable.  Every attribute access of the source that can fail on such an
    object has its exception, and an exception leaves the store as the
    statements before it have made it.  [meta_init_raw_conforming] shows
    that on members of the contract this is [meta_init]. *)






















(** ** The store after [__init__], written out

    The effect of [__init__] on a class whose name is not WorkflowDefinition,
    component by component; [meta_init_explicit] proves that this is what
    [meta_init] returns. *)

Definition bind_attr (a : string) (l : loc) (c : class_obj) : class_obj :=
  Class (c_name c) (c_ancestors c) (<[a := l]> (c_dict c)).

Definition signals_after (st : state) (cls : cls_id)
    (own : gmap string func_obj) : list (gmap string func_obj) :=
  match getattr st cls WORKFLOW_SIGNALS with
  | Some l => alter (λ d, own ∪ d) l (signal_dicts st)
  | None => signal_dicts st ++ [own]
  end.

Definition types_after (st : state) (cls : cls_id)
    (own : gmap descr string) : list (gmap descr string) :=
  match getattr st cls WORKFLOW_TYPES with
  | Some l => alter (λ d, own ∪ d) l (type_dicts st)
  | None => type_dicts st ++ [own]
  end.

Definition classes_after (st : state) (cls : cls_id) : list class_obj :=
  let cl1 :=
    match getattr st cls WORKFLOW_SIGNALS with
    | Some _ => classes st
    | None =>
        alter (bind_attr WORKFLOW_SIGNALS (length (signal_dicts st))) cls
              (classes st)
    end in
  match getattr st cls WORKFLOW_TYPES with
  | Some _ => cl1
  | None => alter (bind_attr WORKFLOW_TYPES (length (type_dicts st))) cls cl1
  end.

Definition state_after (st : state) (cls : cls_id) (cname : string)
    (dct : list member) : state :=
  let r := register_types cname (scan dct).2 (descr_names st) in
  State (classes_after st cls) (signals_after st cls (scan dct).1)
        (types_after st cls r.1) r.2.

(** The signal name under which a function is declared, if it is a signal
    handler. *)
Definition signal_name (f : func_obj) : option string :=
  swf ← fn_swf_options f; sty ← opt_signal_type swf; Some (st_name sty).

(** A member that the first loop passes over: no [func], no [swf_options],
    or options with neither key. *)
Definition unclassified (val : member) : bool :=
  match val with
  | Decorated func =>
      match fn_swf_options func with
      | Some swf =>
          match opt_signal_type swf, opt_workflow_type swf with
          | None, None => true
          | _, _ => false
          end
      | None => true
      end
  | Plain => true
  end.

(** Every handler of every signal dict sits under its own signal name. *)
Definition keyed_by_signal_name (st : state) : Prop :=
  ∀ l d n f, signal_dicts st !! l = Some d → d !! n = Some f →
    signal_name f = Some n.

(** ** The instance model: [WorkflowDefinition] objects *)

Inductive pyobj :=
  | PyNone
  | PyStr (s : string)
  | PyPair (fst_item snd_item : pyobj)
  | PyRef (addr : nat).

(** The instance [__dict__]: the two name-mangled private attributes behind
    the properties, and [_workflow_result]. *)
Record instance := Instance {
  __workflow_execution : option pyobj;
  __workflow_state : option pyobj;
  _workflow_result : option pyobj
}.

Definition new_instance : instance := Instance None None None.

Definition read_attr (v : option pyobj) : result pyobj :=
  match v with
  | Some x => Ok x
  | None => Raise AttributeError
  end.

Definition workflow_execution (self : instance) : result pyobj :=
  read_attr (__workflow_execution self).

Definition workflow_execution_setter (self : instance)
    (workflow_execution : pyobj) : instance :=
  Instance (Some workflow_execution) (__workflow_state self)
           (_workflow_result self).

Definition workflow_state (self : instance) : result pyobj :=
  read_attr (__workflow_state self).

Definition workflow_state_setter (self : instance) (state : pyobj)
  : instance :=
  Instance (__workflow_execution self) (Some state) (_workflow_result self).

Definition workflow_result (self : instance) : result pyobj :=
  read_attr (_workflow_result self).

(** [self._workflow_result = v], a plain attribute assignment; the dispatcher
    does it when the execution starts. *)
Definition set__workflow_result (self : instance) (v : pyobj) : instance :=
  Instance (__workflow_execution self) (__workflow_state self) (Some v).

Definition __init__ (self : instance) (workflow_execution : pyobj)
  : result instance :=
  let self := workflow_execution_setter self workflow_execution in
  let self := workflow_state_setter self (PyStr "") in
  let self := set__workflow_result self PyNone in
  Ok self.

(** [WorkflowDefinition(workflow_execution)]. *)
Definition construct (workflow_execution : pyobj) : result instance :=
  __init__ new_instance workflow_execution.

(** What can be done to an instance afterwards. *)
Inductive op :=
  | GetExecution
  | SetExecution (v : pyobj)
  | GetState
  | SetState (v : pyobj)
  | GetResult
  | Resolve (v : pyobj).

Definition apply_op (self : instance) (o : op) : result instance :=
  match o with
  | GetExecution => _ ← workflow_execution self; Ok self
  | SetExecution v => Ok (workflow_execution_setter self v)
  | GetState => _ ← workflow_state self; Ok self
  | SetState v => Ok (workflow_state_setter self v)
  | GetResult => _ ← workflow_result self; Ok self
  | Resolve v => Ok (set__workflow_result self v)
  end.

Fixpoint run_ops (ops : list op) (self : instance) : result instance :=
  match ops with
  | [] => Ok self
  | o :: ops' => self' ← apply_op self o; run_ops ops' self'
  end.

Definition sets_execution (o : op) : bool :=
  match o with SetExecution _ => true | _ => false end.

Definition sets_state (o : op) : bool :=
  match o with SetState _ => true | _ => false end.

Definition resolves (o : op) : bool :=
  match o with Resolve _ => true | _ => false end.

(** The value that an operation assigns to each attribute, if it assigns
    one, and the last value that a run of operations assigns. *)
Definition written_execution (o : op) : option pyobj :=
  match o with SetExecution v => Some v | _ => None end.

Definition written_state (o : op) : option pyobj :=
  match o with SetState v => Some v | _ => None end.

Definition written_result (o : op) : option pyobj :=
  match o with Resolve v => Some v | _ => None end.

Definition last_written (sel : op → option pyobj) (ops : list op)
  : option pyobj :=
  last (omap sel ops).

(** All three attributes are bound, as they are once [__init__] is over. *)
Definition initialised (self : instance) : bool :=
  bool_decide (is_Some (__workflow_execution self))
  && bool_decide (is_Some (__workflow_state self))
  && bool_decide (is_Some (_workflow_result self)).

(** Scenario C: the identity (id = wf-1, run = r-1). *)
Definition identityC : pyobj := PyPair (PyStr "wf-1") (PyStr "r-1").

(** The operations of the public contract: the status accessor pair and the
    two read-only getters. *)
Inductive public_op :=
  | PubGetExecution
  | PubGetState
  | PubSetState (v : pyobj)
  | PubGetResult.

Definition of_public (o : public_op) : op :=
  match o with
  | PubGetExecution => GetExecution
  | PubGetState => GetState
  | PubSetState v => SetState v
  | PubGetResult => GetResult
  end.

(** ** Scenarios *)

Definition signal_func (id : nat) (fname sname : string) : func_obj :=
  Func id fname (Some (SwfOptions (Some (SignalType sname)) None)).

Definition execute_func (id : nat) (fname : string) (d : descr) : func_obj :=
  Func id fname (Some (SwfOptions None (Some d))).

Definition both_func (id : nat) (fname sname : string) (d : descr)
  : func_obj :=
  Func id fname (Some (SwfOptions (Some (SignalType sname)) (Some d))).

Definition h1 : func_obj := signal_func 1 "on_ping" "ping".
Definition h2 : func_obj := signal_func 2 "on_ping" "ping".
Definition h3 : func_obj := signal_func 3 "on_pong" "pong".

Definition base_decl : class_decl := ("WorkflowDefinition", [], [Plain; Plain]).

Definition state_of (r : result state) : state :=
  match r with
  | Ok st => st
  | Raise _ => init_state
  end.

Definition created (r : result (cls_id * state)) : state :=
  match r with
  | Ok (_, st) => st
  | Raise _ => init_state
  end.

(** Scenario B: [A(W)] declares ping -> h1, then [B(A)] declares
    ping -> h2. *)
Definition scenarioB_before : state :=
  state_of (run_classes [base_decl; ("A", [0], [Decorated h1])] init_state).

Definition scenarioB_after : state :=
  created (class_stmt "B" [1] [Decorated h2] scenarioB_before).

(** Two siblings and a class that derives from both. *)
Definition scenario_two_bases : state :=
  state_of (run_classes [base_decl; ("A", [0], [Decorated h1]);
                         ("C", [0], [Decorated h3]); ("D", [1; 2], [])]
                        init_state).

(** [A(W)] declares the entry point [run] with descriptor 7; [B(A)] declares
    nothing. *)
Definition scenario_inherited_entry : state :=
  state_of (run_classes [base_decl;
                         ("A", [0], [Decorated (execute_func 1 "run" 7)]);
                         ("B", [1], [])] init_state).

(** [A(W)] with a signal and an entry point, and a class object that
    [type.__new__] has just made below it, before the metaclass [__init__]
    runs on it: once called B, once called WorkflowDefinition. *)
Definition classA : class_decl :=
  ("A", [0], [Decorated h1; Decorated (execute_func 4 "run" 7)]).

Definition before_init_of_B : state :=
  created (type_new "B" [1]
             (state_of (run_classes [base_decl; classA] init_state))).


Definition bodyB : list member :=
  [Decorated h2; Plain; Decorated (execute_func 5 "start" 9);
   Decorated (both_func 6 "on_both" "both" 11)].

(** [A(W)] and [C(W)] with their own catalogs, and the class object of
    [B(A)] before the metaclass [__init__] runs on it. *)
Definition before_init_of_B_beside_C : state :=
  created (type_new "B" [1]
             (state_of (run_classes [base_decl; classA;
                                     ("C", [0], [Decorated h3])]
                                    init_state))).

(** The body [bodyB] as another iteration order yields it. *)
Definition bodyB_reordered : list member :=
  [Decorated (both_func 6 "on_both" "both" 11); Decorated h2;
   Decorated (execute_func 5 "start" 9); Plain].




(** ** The properties the specification words, as it words them *)

(** The signal catalog of [cls] is the union of its [own] handlers and of
    the handlers of all its ancestors' catalogs, own handlers first. *)
Definition union_of_own_and_all_ancestors (st : state) (cls : cls_id)
    (own : gmap string func_obj) : Prop :=
  ∃ cat, signal_catalog st cls = Some cat ∧
    (∀ n f, own !! n = Some f → cat !! n = Some f) ∧
    (∀ k ck n, k ∈ tail (mro st cls) → signal_catalog st k = Some ck →
               is_Some (ck !! n) → is_Some (cat !! n)) ∧
    (∀ n f, cat !! n = Some f →
            own !! n = Some f ∨
            ∃ k ck, k ∈ tail (mro st cls) ∧ signal_catalog st k = Some ck ∧
                    ck !! n = Some f).

(** Every descriptor of the entry-point catalog of [cls] displays the name
    of [cls]. *)
Definition display_names_are_class_name (st : state) (cls : cls_id) : Prop :=
  ∀ c cat d, classes st !! cls = Some c →
    types_catalog st cls = Some cat → is_Some (cat !! d) →
    descr_names st !! d = Some (c_name c).

(** Constructing the subclass [sub] (taking [st] to [st']) leaves the
    catalogs of its ancestors as they were. *)
Definition ancestors_unchanged (st st' : state) (sub : cls_id) : Prop :=
  ∀ k, k ∈ tail (mro st' sub) →
    signal_catalog st' k = signal_catalog st k ∧
    types_catalog st' k = types_catalog st k.

(** * Properties *)

(** ** Attribute lookup and [setattr] *)

Lemma omap_ext_in {A B} (f g : A → option B) (l : list A) :
  (∀ x, x ∈ l → f x = g x) → omap f l = omap g l.
Proof.
  induction l as [|x l IH]; intros H; [done|]. csimpl.
  rewrite (H x) by left. rewrite IH; [done|].
  intros y Hy. apply H. by right.
Qed.

Lemma mro_setattr cls a l st k : mro (setattr cls a l st) k = mro st k.
Proof.
  unfold mro, setattr; simpl.
  rewrite list_lookup_alter.
  case_decide as E; [subst k|]; by destruct (classes st !! _).
Qed.

Lemma own_attr_setattr_eq cls a l st c :
  classes st !! cls = Some c → own_attr (setattr cls a l st) a cls = Some l.
Proof.
  intros Hc. unfold own_attr, setattr; simpl.
  rewrite list_lookup_alter_eq, Hc. simpl. apply lookup_insert_eq.
Qed.

Lemma own_attr_setattr_ne_attr cls a a' l st k :
  a ≠ a' → own_attr (setattr cls a l st) a' k = own_attr st a' k.
Proof.
  intros Ha. unfold own_attr, setattr; simpl.
  rewrite list_lookup_alter.
  case_decide as E; [subst k|done].
  destruct (classes st !! cls); simpl; [|done].
  by rewrite lookup_insert_ne.
Qed.

Lemma own_attr_setattr_ne_cls cls a a' l st k :
  k ≠ cls → own_attr (setattr cls a l st) a' k = own_attr st a' k.
Proof.
  intros Hk. unfold own_attr, setattr; simpl.
  by rewrite list_lookup_alter_ne.
Qed.

Lemma getattr_setattr_eq cls a l st c :
  classes st !! cls = Some c → getattr (setattr cls a l st) cls a = Some l.
Proof.
  intros Hc. unfold getattr. rewrite mro_setattr.
  unfold mro. rewrite Hc. simpl.
  by rewrite (own_attr_setattr_eq _ _ _ _ c).
Qed.

Lemma getattr_setattr_ne_attr cls a a' l st k :
  a ≠ a' → getattr (setattr cls a l st) k a' = getattr st k a'.
Proof.
  intros Ha. unfold getattr. rewrite mro_setattr.
  f_equal. apply omap_ext_in. intros x _.
  by apply own_attr_setattr_ne_attr.
Qed.

Lemma hasattr_getattr st cls a :
  hasattr st cls a = match getattr st cls a with
                     | Some _ => true
                     | None => false
                     end.
Proof. unfold hasattr. by destruct (getattr st cls a). Qed.

Lemma getattr_Some_own st cls a l :
  getattr st cls a = Some l →
  ∃ k c, k ∈ mro st cls ∧ classes st !! k = Some c ∧ c_dict c !! a = Some l.
Proof.
  unfold getattr. intros H.
  apply head_Some in H as [rest H].
  assert (l ∈ omap (own_attr st a) (mro st cls)) as Hin
    by (rewrite H; left).
  apply list_elem_of_omap in Hin as (k & Hk & Hown).
  unfold own_attr in Hown.
  destruct (classes st !! k) as [c|] eqn:Hc; [|done].
  by exists k, c.
Qed.

(** ** Well-formed stores *)

Lemma attr_in_range_iff c a n :
  attr_in_range c a n ↔ ∀ l, c_dict c !! a = Some l → l < n.
Proof.
  unfold attr_in_range. destruct (c_dict c !! a) as [l|].
  - rewrite bool_decide_spec. naive_solver.
  - naive_solver.
Qed.

Lemma wf_class_iff st c :
  wf_class st c ↔
  (∀ l, c_dict c !! WORKFLOW_SIGNALS = Some l → l < length (signal_dicts st)) ∧
  (∀ l, c_dict c !! WORKFLOW_TYPES = Some l → l < length (type_dicts st)).
Proof.
  unfold wf_class. by rewrite andb_True, !attr_in_range_iff.
Qed.

Lemma wf_iff st :
  wf st ↔ ∀ k c, classes st !! k = Some c → wf_class st c.
Proof. unfold wf. by rewrite forallb_True, Forall_lookup. Qed.

Lemma wf_lookup_signals st k c l :
  wf st → classes st !! k = Some c → c_dict c !! WORKFLOW_SIGNALS = Some l →
  l < length (signal_dicts st).
Proof.
  intros Hwf Hc Hl. rewrite wf_iff in Hwf. specialize (Hwf k c Hc).
  rewrite wf_class_iff in Hwf. by apply Hwf.
Qed.

Lemma wf_lookup_types st k c l :
  wf st → classes st !! k = Some c → c_dict c !! WORKFLOW_TYPES = Some l →
  l < length (type_dicts st).
Proof.
  intros Hwf Hc Hl. rewrite wf_iff in Hwf. specialize (Hwf k c Hc).
  rewrite wf_class_iff in Hwf. by apply Hwf.
Qed.

Lemma wf_intro st :
  (∀ k c l, classes st !! k = Some c →
     c_dict c !! WORKFLOW_SIGNALS = Some l → l < length (signal_dicts st)) →
  (∀ k c l, classes st !! k = Some c →
     c_dict c !! WORKFLOW_TYPES = Some l → l < length (type_dicts st)) →
  wf st.
Proof.
  intros Hs Ht. rewrite wf_iff. intros k c Hc. rewrite wf_class_iff.
  split; intros l Hl; eauto.
Qed.

Lemma wf_getattr_signals st cls l :
  wf st → getattr st cls WORKFLOW_SIGNALS = Some l →
  l < length (signal_dicts st).
Proof.
  intros Hwf Hg. apply getattr_Some_own in Hg as (k & c & _ & Hc & Hl).
  by apply (wf_lookup_signals st k c).
Qed.

Lemma wf_getattr_types st cls l :
  wf st → getattr st cls WORKFLOW_TYPES = Some l →
  l < length (type_dicts st).
Proof.
  intros Hwf Hg. apply getattr_Some_own in Hg as (k & c & _ & Hc & Hl).
  by apply (wf_lookup_types st k c).
Qed.

Lemma wf_base : wf base_state.
Proof. done. Qed.

Lemma wf_set_descr_names names st : wf st → wf (set_descr_names names st).
Proof. done. Qed.

Lemma wf_type_new name bases st cls st' :
  wf st → type_new name bases st = Ok (cls, st') → wf st'.
Proof.
  unfold type_new. intros Hwf H.
  destruct (linearise st bases) as [anc|]; [|done].
  injection H as <- <-.
  apply wf_intro; simpl; intros k c l Hk Hl;
    apply lookup_app_Some in Hk as [Hk|[_ Hk]];
    try (apply list_lookup_singleton_Some in Hk as [_ <-]; done).
  - by apply (wf_lookup_signals st k c).
  - by apply (wf_lookup_types st k c).
Qed.

(** ** The two attachment steps *)

Lemma attach_signals_spec st cls c s :
  wf st → classes st !! cls = Some c →
  ∃ st1 c1, attach_signals cls s st = Ok st1 ∧ wf st1 ∧
    classes st1 !! cls = Some c1 ∧ c_name c1 = c_name c ∧
    signal_catalog st1 cls = Some (s ∪ default ∅ (signal_catalog st cls)) ∧
    type_dicts st1 = type_dicts st ∧ descr_names st1 = descr_names st ∧
    ∀ k, getattr st1 k WORKFLOW_TYPES = getattr st k WORKFLOW_TYPES.
Proof.
  intros Hwf Hc. unfold attach_signals, signal_catalog.
  rewrite hasattr_getattr.
  destruct (getattr st cls WORKFLOW_SIGNALS) as [l|] eqn:Hg; simpl.
  - pose proof (wf_getattr_signals _ _ _ Hwf Hg) as Hl.
    destruct (lookup_lt_is_Some_2 _ _ Hl) as [d Hd]. rewrite Hd. simpl.
    eexists _, c. split; [done|]. split_and!; try done.
    + apply wf_intro; simpl; intros k c' l' Hk Hl'.
      * rewrite length_insert. by apply (wf_lookup_signals st k c').
      * by apply (wf_lookup_types st k c').
    + change (getattr (State _ _ _ _) cls WORKFLOW_SIGNALS)
        with (getattr st cls WORKFLOW_SIGNALS).
      rewrite Hg. simpl. by rewrite list_lookup_insert_eq.
  - set (st0 := State _ (_ ++ _) _ _).
    assert (classes st0 !! cls = Some c) as Hc0 by done.
    eexists _, _. split; [done|]. split_and!.
    + apply wf_intro; simpl; intros k c' l' Hk Hl';
        rewrite list_lookup_alter in Hk; case_decide as E.
      * subst k. rewrite Hc in Hk. injection Hk as <-. simpl in Hl'.
        rewrite lookup_insert_eq in Hl'. injection Hl' as <-.
        rewrite length_app. simpl. lia.
      * rewrite length_app. pose proof (wf_lookup_signals st k c' l' Hwf Hk Hl').
        lia.
      * subst k. rewrite Hc in Hk. injection Hk as <-. simpl in Hl'.
        rewrite lookup_insert_ne in Hl' by done.
        by apply (wf_lookup_types st cls c).
      * by apply (wf_lookup_types st k c').
    + simpl. rewrite list_lookup_alter_eq, Hc. done.
    + done.
    + rewrite (getattr_setattr_eq _ _ _ _ c Hc0). simpl.
      rewrite lookup_app_r by done. rewrite Nat.sub_diag. simpl.
      by rewrite (right_id_L ∅ (∪)).
    + done.
    + done.
    + intros k. by rewrite getattr_setattr_ne_attr.
Qed.

Lemma attach_types_spec st cls c t :
  wf st → classes st !! cls = Some c →
  ∃ st1 c1, attach_types cls t st = Ok st1 ∧ wf st1 ∧
    classes st1 !! cls = Some c1 ∧ c_name c1 = c_name c ∧
    types_catalog st1 cls = Some (t ∪ default ∅ (types_catalog st cls)) ∧
    signal_dicts st1 = signal_dicts st ∧ descr_names st1 = descr_names st ∧
    ∀ k, getattr st1 k WORKFLOW_SIGNALS = getattr st k WORKFLOW_SIGNALS.
Proof.
  intros Hwf Hc. unfold attach_types, types_catalog.
  rewrite hasattr_getattr.
  destruct (getattr st cls WORKFLOW_TYPES) as [l|] eqn:Hg; simpl.
  - pose proof (wf_getattr_types _ _ _ Hwf Hg) as Hl.
    destruct (lookup_lt_is_Some_2 _ _ Hl) as [d Hd]. rewrite Hd. simpl.
    eexists _, c. split; [done|]. split_and!; try done.
    + apply wf_intro; simpl; intros k c' l' Hk Hl'.
      * by apply (wf_lookup_signals st k c').
      * rewrite length_insert. by apply (wf_lookup_types st k c').
    + change (getattr (State _ _ _ _) cls WORKFLOW_TYPES)
        with (getattr st cls WORKFLOW_TYPES).
      rewrite Hg. simpl. by rewrite list_lookup_insert_eq.
  - set (st0 := State _ _ (_ ++ _) _).
    assert (classes st0 !! cls = Some c) as Hc0 by done.
    eexists _, _. split; [done|]. split_and!.
    + apply wf_intro; simpl; intros k c' l' Hk Hl';
        rewrite list_lookup_alter in Hk; case_decide as E.
      * subst k. rewrite Hc in Hk. injection Hk as <-. simpl in Hl'.
        rewrite lookup_insert_ne in Hl' by done.
        by apply (wf_lookup_signals st cls c).
      * by apply (wf_lookup_signals st k c').
      * subst k. rewrite Hc in Hk. injection Hk as <-. simpl in Hl'.
        rewrite lookup_insert_eq in Hl'. injection Hl' as <-.
        rewrite length_app. simpl. lia.
      * rewrite length_app. pose proof (wf_lookup_types st k c' l' Hwf Hk Hl').
        lia.
    + simpl. rewrite list_lookup_alter_eq, Hc. done.
    + done.
    + rewrite (getattr_setattr_eq _ _ _ _ c Hc0). simpl.
      rewrite lookup_app_r by done. rewrite Nat.sub_diag. simpl.
      by rewrite (right_id_L ∅ (∪)).
    + done.
    + done.
    + intros k. by rewrite getattr_setattr_ne_attr.
Qed.

(** ** The whole of [__init__] *)

Lemma meta_init_base st cls c name bases dct :
  classes st !! cls = Some c → c_name c = "WorkflowDefinition" →
  meta_init cls name bases dct st = Ok st.
Proof.
  intros Hc Hn. unfold meta_init. rewrite Hc.
  by rewrite decide_True.
Qed.

Lemma meta_init_spec st cls c name bases dct :
  wf st → classes st !! cls = Some c → c_name c ≠ "WorkflowDefinition" →
  ∃ st', meta_init cls name bases dct st = Ok st' ∧ wf st' ∧
    (∃ c', classes st' !! cls = Some c' ∧ c_name c' = c_name c) ∧
    signal_catalog st' cls
      = Some ((scan dct).1 ∪ default ∅ (signal_catalog st cls)) ∧
    types_catalog st' cls
      = Some ((register_types (c_name c) (scan dct).2 (descr_names st)).1
              ∪ default ∅ (types_catalog st cls)) ∧
    descr_names st'
      = (register_types (c_name c) (scan dct).2 (descr_names st)).2.
Proof.
  intros Hwf Hc Hn. unfold meta_init. rewrite Hc.
  rewrite decide_False by done.
  destruct (attach_signals_spec st cls c (scan dct).1 Hwf Hc)
    as (st1 & c1 & -> & Hwf1 & Hc1 & Hn1 & Hcat1 & Hty1 & Hdn1 & Hg1).
  simpl. rewrite Hdn1.
  set (r := register_types (c_name c) (scan dct).2 (descr_names st)).
  destruct (attach_types_spec (set_descr_names r.2 st1) cls c1 r.1
              (wf_set_descr_names _ _ Hwf1) Hc1)
    as (st2 & c2 & -> & Hwf2 & Hc2 & Hn2 & Hcat2 & Hs2 & Hdn2 & Hg2).
  exists st2. split_and!; try done.
  - exists c2. split; [done|congruence].
  - unfold signal_catalog in *. rewrite Hg2, Hs2. exact Hcat1.
  - rewrite Hcat2. unfold types_catalog.
    change (getattr (set_descr_names r.2 st1) cls WORKFLOW_TYPES)
      with (getattr st1 cls WORKFLOW_TYPES).
    rewrite Hg1. simpl. by rewrite Hty1.
Qed.

(** ** The scan of the class namespace *)

Lemma scan_snoc dct v : scan (dct ++ [v]) = scan_step (scan dct) v.
Proof. unfold scan. by rewrite foldl_snoc. Qed.

Lemma scan_types dct : (scan dct).2 = omap entry_point_of dct.
Proof.
  induction dct as [|v dct IH] using rev_ind; [done|].
  rewrite scan_snoc, omap_app. unfold scan_step.
  destruct v as [func|]; simpl; [|by rewrite app_nil_r].
  destruct (fn_swf_options func) as [swf|]; simpl; [|by rewrite app_nil_r].
  destruct (opt_signal_type swf); simpl; [by rewrite app_nil_r|].
  destruct (opt_workflow_type swf); simpl; [|by rewrite app_nil_r].
  by rewrite IH.
Qed.

Lemma scan_signals_snoc dct v n :
  (scan (dct ++ [v])).1 !! n =
  match signal_of v with
  | Some (n', f) => if decide (n' = n) then Some f else (scan dct).1 !! n
  | None => (scan dct).1 !! n
  end.
Proof.
  rewrite scan_snoc. unfold scan_step, signal_of.
  destruct v as [func|]; simpl; [|done].
  destruct (fn_swf_options func) as [swf|]; simpl; [|done].
  destruct (opt_signal_type swf) as [sty|]; simpl.
  - by rewrite lookup_insert.
  - by destruct (opt_workflow_type swf).
Qed.

Lemma scan_signals_key dct v n f :
  v ∈ dct → signal_of v = Some (n, f) → is_Some ((scan dct).1 !! n).
Proof.
  induction dct as [|w dct IH] using rev_ind; intros Hin Hs.
  - by apply elem_of_nil in Hin.
  - rewrite scan_signals_snoc.
    apply elem_of_app in Hin as [Hin|Hin].
    + destruct (signal_of w) as [[n' f']|]; [|by apply IH].
      case_decide; [done|by apply IH].
    + apply list_elem_of_singleton in Hin as ->. rewrite Hs.
      by rewrite decide_True.
Qed.

(** ** The renaming loop *)

Lemma register_types_snoc cname wts e names :
  register_types cname (wts ++ [e]) names
  = register_step cname (register_types cname wts names) e.
Proof. unfold register_types. by rewrite foldl_snoc. Qed.

Lemma register_types_names cname wts names d :
  (register_types cname wts names).2 !! d
  = if decide (d ∈ wts.*1) then Some cname else names !! d.
Proof.
  induction wts as [|[d' fn] wts IH] using rev_ind.
  - case_decide as E; [by apply elem_of_nil in E|done].
  - rewrite register_types_snoc, fmap_app. simpl.
    unfold _reset_name. rewrite lookup_insert, IH.
    destruct (decide (d' = d)) as [->|Hne].
    + rewrite decide_True; [done|]. apply elem_of_app. right. left.
    + destruct (decide (d ∈ wts.*1)) as [Hin|Hnin].
      * rewrite decide_True; [done|]. apply elem_of_app. by left.
      * rewrite decide_False; [done|]. intros [?|Hin]%elem_of_app; [done|].
        apply list_elem_of_singleton in Hin. congruence.
Qed.

Lemma register_types_catalog_dom cname wts names d :
  is_Some ((register_types cname wts names).1 !! d) ↔ d ∈ wts.*1.
Proof.
  induction wts as [|[d' fn] wts IH] using rev_ind.
  - simpl. rewrite lookup_empty. split; [by intros [? ?]|].
    by intros ?%elem_of_nil.
  - rewrite register_types_snoc, fmap_app. simpl.
    rewrite lookup_insert, elem_of_app, list_elem_of_singleton.
    destruct (decide (d' = d)) as [->|Hne].
    + split; [by right|by eexists].
    + rewrite IH. split; [by left|]. by intros [?|?].
Qed.


(** ** What a class statement leaves alone *)

Lemma attach_signals_classes cls s st st1 k :
  attach_signals cls s st = Ok st1 → k ≠ cls →
  classes st1 !! k = classes st !! k.
Proof.
  unfold attach_signals. rewrite hasattr_getattr. intros H Hk.
  destruct (getattr st cls WORKFLOW_SIGNALS) as [l|]; simpl in H.
  - destruct (signal_dicts st !! l); [|done]. by injection H as <-.
  - injection H as <-. simpl. by rewrite list_lookup_alter_ne.
Qed.

Lemma attach_types_classes cls t st st1 k :
  attach_types cls t st = Ok st1 → k ≠ cls →
  classes st1 !! k = classes st !! k.
Proof.
  unfold attach_types. rewrite hasattr_getattr. intros H Hk.
  destruct (getattr st cls WORKFLOW_TYPES) as [l|]; simpl in H.
  - destruct (type_dicts st !! l); [|done]. by injection H as <-.
  - injection H as <-. simpl. by rewrite list_lookup_alter_ne.
Qed.

Lemma meta_init_classes cls name bases dct st st' k :
  meta_init cls name bases dct st = Ok st' → k ≠ cls →
  classes st' !! k = classes st !! k.
Proof.
  unfold meta_init. intros H Hk.
  destruct (classes st !! cls) as [c|]; [|done].
  case_decide; [by injection H as <-|].
  destruct (attach_signals cls (scan dct).1 st) as [st1|] eqn:H1; [|done].
  simpl in H. apply (attach_types_classes _ _ _ _ k) in H; [|done].
  rewrite H. simpl. by apply (attach_signals_classes cls (scan dct).1).
Qed.

Lemma class_stmt_classes name bases dct st cls st' k :
  class_stmt name bases dct st = Ok (cls, st') →
  k < length (classes st) → classes st' !! k = classes st !! k.
Proof.
  unfold class_stmt, type_new. intros H Hk.
  destruct (linearise st bases) as [anc|]; [|done]. simpl in H.
  destruct (meta_init _ _ _ _ _) as [st2|] eqn:Hm; [|done].
  simpl in H. injection H as <- <-.
  rewrite (meta_init_classes _ _ _ _ _ _ k Hm) by lia.
  simpl. by rewrite lookup_app_l.
Qed.

Lemma base_class_stmt body :
  class_stmt "WorkflowDefinition" [] body init_state = Ok (0, base_state).
Proof. done. Qed.

Lemma class_stmt_wf name bases dct st cls st' :
  wf st → class_stmt name bases dct st = Ok (cls, st') → wf st'.
Proof.
  unfold class_stmt. intros Hwf H.
  destruct (type_new name bases st) as [[cls1 st1]|] eqn:Hn; [|done].
  simpl in H.
  destruct (meta_init cls1 name bases dct st1) as [st2|] eqn:Hm; [|done].
  simpl in H. injection H as <- <-.
  pose proof (wf_type_new _ _ _ _ _ Hwf Hn) as Hwf1.
  unfold type_new in Hn. destruct (linearise st bases) as [anc|]; [|done].
  injection Hn as <- <-.
  set (st1 := State _ _ _ _) in *.
  assert (classes st1 !! length (classes st) = Some (Class name anc ∅)) as Hc.
  { simpl. by rewrite list_lookup_middle. }
  destruct (decide (name = "WorkflowDefinition")) as [Hn|Hn].
  - rewrite (meta_init_base _ _ _ _ _ _ Hc Hn) in Hm. by injection Hm as <-.
  - destruct (meta_init_spec st1 _ _ name bases dct Hwf1 Hc Hn)
      as (st3 & Hm3 & Hwf3 & _). congruence.
Qed.

Lemma reachable_wf st : reachable st → wf st.
Proof.
  induction 1 as [|st name bases dct cls st' _ IH Hstep];
    [apply wf_base|by eapply class_stmt_wf].
Qed.

(** ** Single-inheritance chains *)

Lemma catalog_attr_cases (a : string) :
  a = WORKFLOW_SIGNALS ∨ a = WORKFLOW_TYPES →
  ∀ st, exclusive st → ∀ k c, classes st !! k = Some c →
  exclusive_class st a c.
Proof.
  intros Ha st Hex k c Hc. unfold exclusive in Hex.
  rewrite forallb_True, Forall_lookup in Hex. specialize (Hex k c Hc).
  apply andb_True in Hex as [Hs Ht]. by destruct Ha as [-> | ->].
Qed.

Lemma exclusive_lookup st a k c l j :
  a = WORKFLOW_SIGNALS ∨ a = WORKFLOW_TYPES →
  exclusive st → classes st !! k = Some c → c_dict c !! a = Some l →
  j ∈ c_ancestors c → own_attr st a j = None.
Proof.
  intros Ha Hex Hc Hl Hj.
  pose proof (catalog_attr_cases a Ha st Hex k c Hc) as H.
  unfold exclusive_class in H. rewrite Hl in H.
  rewrite forallb_True, Forall_forall in H. specialize (H j Hj).
  by apply bool_decide_unpack in H.
Qed.

Lemma omap_all_None {A B} (f : A → option B) (l : list A) :
  (∀ x, x ∈ l → f x = None) → omap f l = [].
Proof.
  induction l as [|x l IH]; intros H; [done|]. csimpl.
  rewrite (H x) by left. apply IH. intros y Hy. apply H. by right.
Qed.

Lemma head_omap_None {A B} (f : A → option B) (l : list A) x :
  head (omap f l) = None → x ∈ l → f x = None.
Proof.
  induction l as [|y l IH]; intros H Hx; [by apply elem_of_nil in Hx|].
  csimpl in H. destruct (f y) eqn:Hy; [done|].
  apply elem_of_cons in Hx as [->|Hx]; [done|by apply IH].
Qed.

Lemma mro_cons_inv st j rest :
  mro st j = j :: rest →
  ∃ c, classes st !! j = Some c ∧ c_ancestors c = rest.
Proof.
  unfold mro. destruct (classes st !! j) as [c|]; [|done].
  intros [= <-]. by exists c.
Qed.

(** Along a chain, whoever resolves the attribute resolves it to the dict
    that the head of the chain resolves it to. *)
Lemma chain_getattr st a l k x :
  a = WORKFLOW_SIGNALS ∨ a = WORKFLOW_TYPES →
  exclusive st → is_chain st l → k ∈ l → getattr st k a = Some x →
  head (omap (own_attr st a) l) = Some x.
Proof.
  intros Ha Hex. induction l as [|j rest IH]; intros Hch Hk Hg.
  - by apply elem_of_nil in Hk.
  - simpl in Hch. apply andb_True in Hch as [Hj Hch].
    apply bool_decide_unpack in Hj.
    apply elem_of_cons in Hk as [->|Hk].
    + unfold getattr in Hg. by rewrite Hj in Hg.
    + specialize (IH Hch Hk Hg). csimpl.
      destruct (own_attr st a j) as [y|] eqn:Hown; [|done].
      exfalso. apply mro_cons_inv in Hj as (c & Hc & Hanc).
      unfold own_attr in Hown. rewrite Hc in Hown. simpl in Hown.
      rewrite omap_all_None in IH; [done|].
      intros i Hi. apply (exclusive_lookup st a j c y i); try done.
      by rewrite Hanc.
Qed.

Lemma chain_catalog st cls k l :
  exclusive st → is_chain st (mro st cls) → k ∈ mro st cls →
  (getattr st k WORKFLOW_SIGNALS = Some l →
   getattr st cls WORKFLOW_SIGNALS = Some l) ∧
  (getattr st k WORKFLOW_TYPES = Some l →
   getattr st cls WORKFLOW_TYPES = Some l).
Proof.
  intros Hex Hch Hk. split; intros Hg.
  - by apply (chain_getattr st WORKFLOW_SIGNALS _ k); [left|..].
  - by apply (chain_getattr st WORKFLOW_TYPES _ k); [right|..].
Qed.

(** ** The invariants of the stores that class statements build *)

Lemma exclusive_intro st :
  (∀ k c a l j, classes st !! k = Some c →
     a = WORKFLOW_SIGNALS ∨ a = WORKFLOW_TYPES →
     c_dict c !! a = Some l → j ∈ c_ancestors c → own_attr st a j = None) →
  exclusive st.
Proof.
  intros H. unfold exclusive. rewrite forallb_True, Forall_lookup.
  intros k c Hc. apply andb_True. unfold exclusive_class.
  split.
  - destruct (c_dict c !! WORKFLOW_SIGNALS) as [l|] eqn:Hl; [|done].
    rewrite forallb_True, Forall_forall. intros j Hj.
    apply bool_decide_pack. apply (H k c _ l j); auto.
  - destruct (c_dict c !! WORKFLOW_TYPES) as [l|] eqn:Hl; [|done].
    rewrite forallb_True, Forall_forall. intros j Hj.
    apply bool_decide_pack. apply (H k c _ l j); auto.
Qed.

Lemma older_unreferenced st cls :
  older st → length (classes st) = S cls → unreferenced st cls.
Proof.
  intros Ho Hlen k c Hc Hin.
  pose proof (Ho k c cls Hc Hin). apply lookup_lt_Some in Hc. lia.
Qed.

Lemma getattr_None_own st cls a j :
  getattr st cls a = None → j ∈ mro st cls → own_attr st a j = None.
Proof. unfold getattr. apply head_omap_None. Qed.

Lemma exclusive_setattr st cls a l :
  a = WORKFLOW_SIGNALS ∨ a = WORKFLOW_TYPES →
  exclusive st → unreferenced st cls → getattr st cls a = None →
  exclusive (setattr cls a l st).
Proof.
  intros Ha Hex Hun Hg. apply exclusive_intro.
  intros k c' a' l' j Hc' Ha' Hl' Hj. simpl in Hc'.
  rewrite list_lookup_alter in Hc'.
  assert (∃ c, classes st !! k = Some c ∧ c_ancestors c' = c_ancestors c)
    as (c & Hc & Hanc).
  { case_decide; [|by exists c'].
    subst k. destruct (classes st !! cls) as [c|]; [|done].
    injection Hc' as <-. by exists c. }
  assert (j ∈ c_ancestors c) as Hjc by (by rewrite <- Hanc).
  assert (j ≠ cls) as Hne by (intros ->; by apply (Hun k c)).
  rewrite own_attr_setattr_ne_cls by done.
  case_decide as E; [subst k|by apply (exclusive_lookup st a' k c' l' j)].
  rewrite Hc in Hc'. injection Hc' as <-. simpl in Hl'.
  destruct (decide (a = a')) as [<-|Hna].
  - apply (getattr_None_own st cls a j Hg). unfold mro. rewrite Hc. by right.
  - rewrite lookup_insert_ne in Hl' by done.
    by apply (exclusive_lookup st a' cls c l' j).
Qed.

Lemma same_shape_classes st st' :
  classes st' = classes st → same_shape st st'.
Proof. intros H. split; rewrite H; [done|]. intros k c Hc. by exists c. Qed.

Lemma same_shape_refl st : same_shape st st.
Proof. by apply same_shape_classes. Qed.

Lemma same_shape_trans st1 st2 st3 :
  same_shape st1 st2 → same_shape st2 st3 → same_shape st1 st3.
Proof.
  intros [Hl1 H1] [Hl2 H2]. split; [congruence|].
  intros k c3 Hc3. destruct (H2 k c3 Hc3) as (c2 & Hc2 & Ha2 & Hn2).
  destruct (H1 k c2 Hc2) as (c1 & Hc1 & Ha1 & Hn1).
  exists c1. split_and!; congruence.
Qed.

Lemma same_shape_setattr cls a l st : same_shape st (setattr cls a l st).
Proof.
  split; [apply length_alter|]. intros k c' Hc'. simpl in Hc'.
  rewrite list_lookup_alter in Hc'. case_decide; [|by exists c'].
  subst k. destruct (classes st !! cls) as [c|]; [|done].
  injection Hc' as <-. by exists c.
Qed.

Lemma same_shape_older st st' : same_shape st st' → older st → older st'.
Proof.
  intros [_ H] Ho k c' j Hc' Hj. destruct (H k c' Hc') as (c & Hc & Ha & _).
  apply (Ho k c j Hc). by rewrite <- Ha.
Qed.

Lemma same_shape_unreferenced st st' cls :
  same_shape st st' → unreferenced st cls → unreferenced st' cls.
Proof.
  intros [_ H] Hun k c' Hc' Hj. destruct (H k c' Hc') as (c & Hc & Ha & _).
  apply (Hun k c Hc). by rewrite <- Ha.
Qed.

Lemma attach_signals_invariants cls s st st1 :
  exclusive st → unreferenced st cls → attach_signals cls s st = Ok st1 →
  exclusive st1 ∧ same_shape st st1.
Proof.
  unfold attach_signals. rewrite hasattr_getattr. intros Hex Hun H.
  destruct (getattr st cls WORKFLOW_SIGNALS) as [l|] eqn:Hg; simpl in H.
  - destruct (signal_dicts st !! l); [|done]. injection H as <-.
    split; [exact Hex|by apply same_shape_classes].
  - injection H as <-. split.
    + apply exclusive_setattr; [by left|exact Hex|exact Hun|exact Hg].
    + apply (same_shape_setattr cls WORKFLOW_SIGNALS _
               (State (classes st) _ _ _)).
Qed.

Lemma attach_types_invariants cls t st st1 :
  exclusive st → unreferenced st cls → attach_types cls t st = Ok st1 →
  exclusive st1 ∧ same_shape st st1.
Proof.
  unfold attach_types. rewrite hasattr_getattr. intros Hex Hun H.
  destruct (getattr st cls WORKFLOW_TYPES) as [l|] eqn:Hg; simpl in H.
  - destruct (type_dicts st !! l); [|done]. injection H as <-.
    split; [exact Hex|by apply same_shape_classes].
  - injection H as <-. split.
    + apply exclusive_setattr; [by right|exact Hex|exact Hun|exact Hg].
    + apply (same_shape_setattr cls WORKFLOW_TYPES _
               (State (classes st) _ _ _)).
Qed.

Lemma meta_init_invariants cls name bases dct st st' :
  exclusive st → unreferenced st cls →
  meta_init cls name bases dct st = Ok st' →
  exclusive st' ∧ same_shape st st'.
Proof.
  unfold meta_init. intros Hex Hun H.
  destruct (classes st !! cls) as [c|]; [|done].
  case_decide; [injection H as <-; split; [done|apply same_shape_refl]|].
  destruct (attach_signals cls (scan dct).1 st) as [st1|] eqn:H1; [|done].
  simpl in H.
  destruct (attach_signals_invariants _ _ _ _ Hex Hun H1) as [Hex1 Hsh1].
  apply attach_types_invariants in H as [Hex2 Hsh2].
  - split; [done|]. eapply same_shape_trans; [exact Hsh1|exact Hsh2].
  - exact Hex1.
  - by apply (same_shape_unreferenced st).
Qed.

(** What the merge returns comes from the sequences it is given. *)
Lemma c3_candidate_elem seqs cand :
  c3_candidate seqs = Some cand → ∃ s, s ∈ seqs ∧ cand ∈ s.
Proof.
  unfold c3_candidate. intros H. apply head_Some in H as [rest H].
  assert (cand ∈ omap (λ s, c ← head s;
                        if forallb (λ s', negb (in_tail c s')) seqs
                        then Some c else None) seqs) as Hin
    by (rewrite H; left).
  apply list_elem_of_omap in Hin as (s & Hs & Hc). exists s. split; [done|].
  destruct s as [|x s]; [done|]. simpl in Hc.
  destruct (forallb _ seqs); [|done]. injection Hc as ->. left.
Qed.

Lemma drop_head_elem c s x : x ∈ drop_head c s → x ∈ s.
Proof.
  destruct s as [|y s]; [done|]. simpl. case_decide; [|done].
  intros Hx. by right.
Qed.

Lemma c3_merge_elem fuel seqs l x :
  c3_merge fuel seqs = Some l → x ∈ l → ∃ s, s ∈ seqs ∧ x ∈ s.
Proof.
  revert seqs l. induction fuel as [|fuel IH]; intros seqs l H Hx.
  - simpl in H. destruct (filter _ seqs); [|done]. injection H as <-.
    by apply elem_of_nil in Hx.
  - change (c3_merge (S fuel) seqs) with
      (match filter (λ s, s ≠ []) seqs with
       | [] => Some []
       | s0 :: ne =>
           cand ← c3_candidate (s0 :: ne);
           rest ← c3_merge fuel (drop_head cand <$> s0 :: ne);
           Some (cand :: rest)
       end) in H.
    destruct (filter (λ s, s ≠ []) seqs) as [|s0 ne] eqn:Hf.
    { injection H as <-. by apply elem_of_nil in Hx. }
    destruct (c3_candidate (s0 :: ne)) as [cand|] eqn:Hc; [|done].
    change ((rest ← c3_merge fuel (drop_head cand <$> s0 :: ne);
             Some (cand :: rest)) = Some l) in H.
    destruct (c3_merge fuel (drop_head cand <$> s0 :: ne)) as [rest|] eqn:Hr;
      [|done].
    injection H as <-.
    assert (∀ s, s ∈ s0 :: ne → s ∈ seqs) as Hsub.
    { intros s Hs. rewrite <- Hf in Hs.
      by apply list_elem_of_filter in Hs as [_ ?]. }
    apply elem_of_cons in Hx as [->|Hx].
    + apply c3_candidate_elem in Hc as (s & Hs & Hin). exists s. auto.
    + destruct (IH _ _ Hr Hx) as (s' & Hs' & Hin).
      apply list_elem_of_fmap in Hs' as (s & -> & Hs).
      exists s. split; [auto|]. by apply (drop_head_elem cand).
Qed.

Lemma linearise_older st bases anc j :
  older st → linearise st bases = Some anc → j ∈ anc →
  j < length (classes st).
Proof.
  unfold linearise. intros Ho H Hj.
  destruct (mapM _ bases) as [mros|] eqn:Hm; [|done]. simpl in H.
  apply mapM_Some in Hm.
  destruct (c3_merge_elem _ _ _ j H Hj) as (s & Hs & Hin).
  apply elem_of_app in Hs as [Hs|Hs].
  - apply list_elem_of_lookup in Hs as [i Hi].
    destruct (Forall2_lookup_r _ _ _ _ _ Hm Hi) as (b & Hb & Hfb).
    case_decide as Hlt; [|done]. injection Hfb as <-.
    unfold mro in Hin. destruct (classes st !! b) as [c|] eqn:Hc;
      [|by apply elem_of_nil in Hin].
    apply elem_of_cons in Hin as [->|Hin]; [done|].
    pose proof (Ho b c j Hc Hin). lia.
  - apply list_elem_of_singleton in Hs as ->.
    apply list_elem_of_lookup in Hin as [i Hi].
    destruct (Forall2_lookup_l _ _ _ _ _ Hm Hi) as (m & _ & Hfb).
    by case_decide.
Qed.

Lemma type_new_invariants name bases st cls st' :
  exclusive st → older st → type_new name bases st = Ok (cls, st') →
  exclusive st' ∧ older st' ∧ length (classes st') = S cls.
Proof.
  unfold type_new. intros Hex Ho H.
  destruct (linearise st bases) as [anc|] eqn:Hlin; [|done].
  injection H as <- <-.
  assert (older (State (classes st ++ [Class name anc ∅]) (signal_dicts st)
                       (type_dicts st) (descr_names st))) as Ho'.
  { intros k c j Hc Hj. simpl in Hc.
    apply lookup_app_Some in Hc as [Hc|[Hlen Hc]]; [by apply (Ho k c)|].
    apply list_lookup_singleton_Some in Hc as [_ <-]. simpl in Hj.
    pose proof (linearise_older _ _ _ j Ho Hlin Hj). lia. }
  split_and!; [|done|simpl; rewrite length_app; simpl; lia].
  apply exclusive_intro. intros k c a l j Hc Ha Hl Hj.
  pose proof (Ho' k c j Hc Hj) as Hlt. simpl in Hc.
  apply lookup_app_Some in Hc as [Hc|[Hlen Hc]].
  - unfold own_attr. simpl. apply lookup_lt_Some in Hc as Hk.
    rewrite lookup_app_l by lia.
    by apply (exclusive_lookup st a k c l j).
  - apply list_lookup_singleton_Some in Hc as [_ <-]. done.
Qed.

Lemma class_stmt_invariants name bases dct st cls st' :
  exclusive st → older st → class_stmt name bases dct st = Ok (cls, st') →
  exclusive st' ∧ older st'.
Proof.
  unfold class_stmt. intros Hex Ho H.
  destruct (type_new name bases st) as [[cls1 st1]|] eqn:Hn; [|done].
  simpl in H.
  destruct (meta_init cls1 name bases dct st1) as [st2|] eqn:Hm; [|done].
  simpl in H. injection H as <- <-.
  destruct (type_new_invariants _ _ _ _ _ Hex Ho Hn) as (Hex1 & Ho1 & Hlen).
  destruct (meta_init_invariants _ _ _ _ _ _ Hex1
              (older_unreferenced _ _ Ho1 Hlen) Hm) as [Hex2 Hsh].
  split; [done|]. by apply (same_shape_older st1).
Qed.

Lemma reachable_exclusive st : reachable st → exclusive st ∧ older st.
Proof.
  induction 1 as [|st name bases dct cls st' _ [Hex Ho] Hstep].
  - split; [done|]. intros k c j Hc Hj.
    destruct k; [|done]. injection Hc as <-. by apply elem_of_nil in Hj.
  - by apply (class_stmt_invariants name bases dct st cls).
Qed.

(** ** A class with one base continues the chain of its base *)

Lemma chain_NoDup st l : older st → is_chain st l → NoDup l.
Proof.
  intros Ho. induction l as [|j rest IH]; intros Hch; [constructor|].
  simpl in Hch. apply andb_True in Hch as [Hj Hch].
  apply bool_decide_unpack, mro_cons_inv in Hj as (c & Hc & Hanc).
  constructor; [|by apply IH].
  intros Hin. rewrite <- Hanc in Hin. pose proof (Ho j c j Hc Hin). lia.
Qed.

Lemma c3_merge_one fuel l :
  NoDup l → length l ≤ fuel → c3_merge fuel [l; []] = Some l.
Proof.
  revert l. induction fuel as [|fuel IH]; intros l Hnd Hlen.
  - destruct l; [done|]. simpl in Hlen. lia.
  - destruct l as [|x l]; [done|].
    apply NoDup_cons in Hnd as [Hx Hnd]. simpl in Hlen.
    change (c3_merge (S fuel) [x :: l; []]) with
      (cand ← c3_candidate [x :: l];
       rest ← c3_merge fuel (drop_head cand <$> [x :: l]);
       Some (cand :: rest)).
    assert (c3_candidate [x :: l] = Some x) as ->.
    { unfold c3_candidate. csimpl. unfold in_tail. simpl.
      by case_bool_decide. }
    change (Some x ≫= _) with
      (rest ← c3_merge fuel [drop_head x (x :: l)]; Some (x :: rest)).
    simpl. rewrite decide_True by done.
    assert (c3_merge fuel [l] = c3_merge fuel [l; []]) as ->
      by (by destruct fuel, l).
    rewrite IH; [done|done|lia].
Qed.

Lemma c3_candidate_head x l seqs :
  forallb (λ s', negb (in_tail x s')) ((x :: l) :: seqs) = true →
  c3_candidate ((x :: l) :: seqs) = Some x.
Proof.
  intros H. unfold c3_candidate. csimpl.
  simpl in H. by rewrite H.
Qed.

Lemma c3_merge_two fuel b rest :
  NoDup (b :: rest) → length rest ≤ fuel →
  c3_merge (S fuel) [b :: rest; [b]] = Some (b :: rest).
Proof.
  intros Hnd Hlen. apply NoDup_cons in Hnd as [Hb Hnd].
  change (c3_merge (S fuel) [b :: rest; [b]]) with
    (cand ← c3_candidate [b :: rest; [b]];
     tl ← c3_merge fuel (drop_head cand <$> [b :: rest; [b]]);
     Some (cand :: tl)).
  rewrite c3_candidate_head.
  2:{ simpl. unfold in_tail. simpl.
      by rewrite !andb_true_r, negb_true_iff, bool_decide_eq_false. }
  change (Some b ≫= ?f) with (f b). cbv beta.
  change (drop_head b <$> [b :: rest; [b]])
    with [drop_head b (b :: rest); drop_head b [b]].
  unfold drop_head. rewrite !decide_True by done.
  by rewrite c3_merge_one.
Qed.

Lemma linearise_single_base st b rest :
  older st → mro st b = b :: rest → is_chain st rest →
  linearise st [b] = Some (b :: rest).
Proof.
  intros Ho Hb Hch. unfold linearise.
  assert (is_chain st (b :: rest)) as Hchb.
  { simpl. apply andb_True. split; [by apply bool_decide_pack|done]. }
  pose proof (chain_NoDup st _ Ho Hchb) as Hnd.
  assert (b < length (classes st)) as Hlt.
  { apply mro_cons_inv in Hb as (c & Hc & _). by apply lookup_lt_Some in Hc. }
  csimpl. rewrite decide_True by done. csimpl. rewrite Hb.
  change (c3_merge _ _) with
    (c3_merge (S (length (rest ++ []) + 1)) [b :: rest; [b]]).
  apply c3_merge_two; [done|]. rewrite length_app. simpl. lia.
Qed.

Lemma linearise_base_exists st b anc :
  linearise st [b] = Some anc → b < length (classes st).
Proof.
  unfold linearise. csimpl. case_decide; [done|]. by csimpl.
Qed.

Lemma same_shape_mro st st' k : same_shape st st' → mro st' k = mro st k.
Proof.
  intros [Hlen H]. unfold mro.
  destruct (classes st' !! k) as [c'|] eqn:Hc'.
  - destruct (H k c' Hc') as (c & -> & -> & _). done.
  - apply lookup_ge_None in Hc'. rewrite Hlen in Hc'.
    apply lookup_ge_None in Hc'. by rewrite Hc'.
Qed.

Lemma same_shape_chain st st' l :
  same_shape st st' → is_chain st' l = is_chain st l.
Proof.
  intros Hsh. induction l as [|j rest IH]; [done|]. simpl.
  by rewrite (same_shape_mro st st' j Hsh), IH.
Qed.

Lemma chain_older st l j : older st → is_chain st l → j ∈ l →
  j < length (classes st).
Proof.
  intros Ho. induction l as [|i rest IH]; intros Hch Hj.
  - by apply elem_of_nil in Hj.
  - simpl in Hch. apply andb_True in Hch as [Hi Hch].
    apply elem_of_cons in Hj as [->|Hj]; [|by apply IH].
    apply bool_decide_unpack, mro_cons_inv in Hi as (c & Hc & _).
    by apply lookup_lt_Some in Hc.
Qed.

Lemma chain_snoc_class st l c :
  older st → is_chain st l →
  is_chain (State (classes st ++ [c]) (signal_dicts st) (type_dicts st)
                  (descr_names st)) l.
Proof.
  intros Ho. induction l as [|j rest IH]; intros Hch; [done|].
  pose proof (chain_older st _ j Ho Hch) as Hj.
  simpl in Hch. apply andb_True in Hch as [Hm Hch]. simpl.
  apply andb_True. split; [|by apply IH].
  apply bool_decide_unpack in Hm. apply bool_decide_pack.
  unfold mro in *. simpl. rewrite lookup_app_l; [done|]. apply Hj. left.
Qed.

(** In a hierarchy where every class has one base, the resolution order of
    every class stays a chain. *)
Lemma class_stmt_single_base_chain name b dct st cls st' :
  exclusive st → older st → all_chains st →
  class_stmt name [b] dct st = Ok (cls, st') →
  all_chains st'.
Proof.
  intros Hex Ho Hall. unfold class_stmt.
  destruct (type_new name [b] st) as [[cls1 st1]|] eqn:Hn; [|done].
  simpl.
  destruct (meta_init cls1 name [b] dct st1) as [st2|] eqn:Hm; [|done].
  simpl. intros [= <- <-].
  destruct (type_new_invariants _ _ _ _ _ Hex Ho Hn) as (Hex1 & Ho1 & Hlen).
  destruct (meta_init_invariants _ _ _ _ _ _ Hex1
              (older_unreferenced _ _ Ho1 Hlen) Hm) as [_ Hsh].
  intros k Hk. rewrite (same_shape_mro st1 st2 k Hsh).
  rewrite (same_shape_chain st1 st2 _ Hsh).
  destruct Hsh as [Hlen2 _]. rewrite Hlen2, Hlen in Hk.
  unfold type_new in Hn.
  destruct (linearise st [b]) as [anc|] eqn:Hlin; [|done].
  pose proof (linearise_base_exists _ _ _ Hlin) as Hb.
  injection Hn as <- <-.
  destruct (lookup_lt_is_Some_2 _ _ Hb) as [cb Hcb].
  assert (mro st b = b :: c_ancestors cb) as Hmro
    by (unfold mro; by rewrite Hcb).
  pose proof (Hall b Hb) as Hchb. rewrite Hmro in Hchb.
  pose proof Hchb as Hchb'. simpl in Hchb'.
  apply andb_True in Hchb' as [_ Hrest].
  rewrite (linearise_single_base st b _ Ho Hmro Hrest) in Hlin.
  injection Hlin as <-.
  destruct (decide (k = length (classes st))) as [->|Hne].
  - unfold mro at 1. simpl. rewrite list_lookup_middle by done. simpl.
    apply andb_True. split.
    + apply bool_decide_pack. unfold mro. simpl.
      by rewrite list_lookup_middle.
    + exact (chain_snoc_class st (b :: c_ancestors cb) _ Ho Hchb).
  - assert (k < length (classes st)) as Hk' by lia.
    assert (mro (State (classes st ++ [Class name (b :: c_ancestors cb) ∅])
                       (signal_dicts st) (type_dicts st) (descr_names st)) k
            = mro st k) as ->.
    { unfold mro. simpl. by rewrite lookup_app_l. }
    apply chain_snoc_class; [done|]. by apply Hall.
Qed.

(** ** The catalogs of a class after its construction *)

(** C2 (as amended).  For a class whose name is not WorkflowDefinition, the
    signal catalog after construction is the handlers declared in its own
    body laid over the catalog that attribute lookup found before the
    construction (the one of the first class of its method resolution order
    that carries one; nothing when there is none); on a name collision the
    class's own handler is the one present.  When the resolution order is a
    single-inheritance chain, that inherited catalog is the catalog of every
    ancestor that has one, so the result is the union with the handlers of
    all ancestors.  Catalogs of further bases are not merged in. *)
Theorem signal_catalog_overlays_inherited st cls c name bases dct :
  wf st → exclusive st →
  classes st !! cls = Some c → c_name c ≠ "WorkflowDefinition" →
  ∃ st' cat, meta_init cls name bases dct st = Ok st' ∧
    signal_catalog st' cls = Some cat ∧
    cat = (scan dct).1 ∪ default ∅ (signal_catalog st cls) ∧
    (∀ n, cat !! n = match (scan dct).1 !! n with
                     | Some f => Some f
                     | None => default ∅ (signal_catalog st cls) !! n
                     end) ∧
    (is_chain st (mro st cls) →
     ∀ k ck, k ∈ c_ancestors c → signal_catalog st k = Some ck →
       cat = (scan dct).1 ∪ ck).
Proof.
  intros Hwf Hex Hc Hn.
  destruct (meta_init_spec st cls c name bases dct Hwf Hc Hn)
    as (st' & Hm & _ & _ & Hcat & _).
  exists st', ((scan dct).1 ∪ default ∅ (signal_catalog st cls)).
  split_and!; try done.
  - intros n. rewrite lookup_union.
    destruct ((scan dct).1 !! n); simpl; [|by rewrite (left_id_L None _)].
    by destruct (default ∅ (signal_catalog st cls) !! n).
  - intros Hch k ck Hk Hck. f_equal.
    unfold signal_catalog in *.
    destruct (getattr st k WORKFLOW_SIGNALS) as [l|] eqn:Hg; [|done].
    simpl in Hck.
    assert (k ∈ mro st cls) as Hin by (unfold mro; rewrite Hc; by right).
    destruct (chain_catalog st cls k l Hex Hch Hin) as [Hs _].
    rewrite (Hs Hg). simpl. by rewrite Hck.
Qed.

Lemma meta_init_entry_points st cls c name bases dct :
  wf st → classes st !! cls = Some c → c_name c ≠ "WorkflowDefinition" →
  ∃ st' c' cat, meta_init cls name bases dct st = Ok st' ∧
    classes st' !! cls = Some c' ∧ c_name c' = c_name c ∧
    types_catalog st' cls = Some cat ∧
    (∀ v d fn, v ∈ dct → entry_point_of v = Some (d, fn) →
       is_Some (cat !! d) ∧ descr_names st' !! d = Some (c_name c')) ∧
    (∀ d, (∀ v fn, v ∈ dct → entry_point_of v ≠ Some (d, fn)) →
       cat !! d = default ∅ (types_catalog st cls) !! d ∧
       descr_names st' !! d = descr_names st !! d).
Proof.
  intros Hwf Hc Hn.
  destruct (meta_init_spec st cls c name bases dct Hwf Hc Hn)
    as (st' & Hm & _ & (c' & Hc' & Hn') & _ & Hcat & Hdn).
  eexists st', c', _. split_and!; try done.
  - intros v d fn Hv He.
    assert (d ∈ ((scan dct).2).*1) as Hd.
    { rewrite scan_types. apply list_elem_of_fmap. exists (d, fn).
      split; [done|]. apply list_elem_of_omap. by exists v. }
    split.
    + rewrite lookup_union.
      apply (register_types_catalog_dom (c_name c) _ (descr_names st)) in Hd
        as [fn' ->].
      by destruct (default ∅ (types_catalog st cls) !! d).
    + rewrite Hdn, register_types_names, Hn'. by rewrite decide_True.
  - intros d Hd.
    assert (d ∉ ((scan dct).2).*1) as Hnd.
    { rewrite scan_types. intros Hin.
      apply list_elem_of_fmap in Hin as ([d' fn] & -> & Hin).
      apply list_elem_of_omap in Hin as (v & Hv & He).
      by apply (Hd v fn). }
    split.
    + rewrite lookup_union.
      destruct ((register_types (c_name c) (scan dct).2 (descr_names st)).1
                  !! d) as [fn|] eqn:Hl.
      * exfalso. apply Hnd.
        apply (register_types_catalog_dom (c_name c) _ (descr_names st)).
        by eexists.
      * by rewrite (left_id_L None _).
    + rewrite Hdn, register_types_names. by rewrite decide_False.
Qed.

(** C4 (as amended).  After the construction of a class whose name is not
    WorkflowDefinition, every descriptor that a member of its own body
    declares as an entry point is in its entry-point catalog and displays
    the name of that class; a descriptor that no member of the body declares
    keeps the display name and the catalog entry it had before. *)
Theorem declared_descriptors_take_class_name st cls c name bases dct :
  wf st → classes st !! cls = Some c → c_name c ≠ "WorkflowDefinition" →
  ∃ st' c' cat, meta_init cls name bases dct st = Ok st' ∧
    classes st' !! cls = Some c' ∧ c_name c' = c_name c ∧
    types_catalog st' cls = Some cat ∧
    (∀ v d fn, v ∈ dct → entry_point_of v = Some (d, fn) →
       is_Some (cat !! d) ∧ descr_names st' !! d = Some (c_name c')) ∧
    (∀ d, (∀ v fn, v ∈ dct → entry_point_of v ≠ Some (d, fn)) →
       cat !! d = default ∅ (types_catalog st cls) !! d ∧
       descr_names st' !! d = descr_names st !! d).
Proof. apply meta_init_entry_points. Qed.

Lemma signal_catalog_overlays_inherited_witness :
  wf before_init_of_B ∧ exclusive before_init_of_B ∧
  classes before_init_of_B !! 2 = Some (Class "B" [1; 0] ∅) ∧
  is_chain before_init_of_B (mro before_init_of_B 2) ∧
  ∃ st' cat, meta_init 2 "B" [1] bodyB before_init_of_B = Ok st' ∧
    signal_catalog st' 2 = Some cat ∧
    cat = (scan bodyB).1 ∪ default ∅ (signal_catalog before_init_of_B 2) ∧
    (∀ n, cat !! n = match (scan bodyB).1 !! n with
                     | Some f => Some f
                     | None =>
                         default ∅ (signal_catalog before_init_of_B 2) !! n
                     end) ∧
    (is_chain before_init_of_B (mro before_init_of_B 2) →
     ∀ k ck, k ∈ [1; 0] → signal_catalog before_init_of_B k = Some ck →
       cat = (scan bodyB).1 ∪ ck).
Proof.
  split; [vm_compute; exact I|]. split; [vm_compute; exact I|].
  split; [reflexivity|]. split; [vm_compute; exact I|].
  apply (signal_catalog_overlays_inherited before_init_of_B 2
           (Class "B" [1; 0] ∅) "B" [1] bodyB);
    [vm_compute; exact I|vm_compute; exact I|reflexivity|discriminate].
Defined.

(** In the class [D(A, C)] the handler pong of the ancestor [C] is missing
    from the catalog of [D], which is the dict of [A]. *)
Lemma two_bases_catalog_misses_an_ancestor :
  2 ∈ tail (mro scenario_two_bases 3) ∧
  signal_catalog scenario_two_bases 2 ≫= (.!! "pong") = Some h3 ∧
  signal_catalog scenario_two_bases 3 ≫= (.!! "pong") = None ∧
  ¬ union_of_own_and_all_ancestors scenario_two_bases 3 (scan []).1.
Proof.
  assert (2 ∈ tail (mro scenario_two_bases 3)) as Hanc.
  { change (2 ∈ [1; 2; 0]). set_solver. }
  assert (signal_catalog scenario_two_bases 2 = Some {["pong" := h3]}) as HC
    by (vm_compute; reflexivity).
  assert (signal_catalog scenario_two_bases 3 = Some {["ping" := h1]}) as HD
    by (vm_compute; reflexivity).
  split_and!; [done|by rewrite HC|by rewrite HD|].
  intros (cat & Hcat & _ & Hall & _).
  rewrite HD in Hcat. injection Hcat as <-.
  destruct (Hall 2 _ "pong" Hanc HC) as [f Hf]; [by eexists|].
  by vm_compute in Hf.
Qed.

Lemma declared_descriptors_take_class_name_witness :
  wf before_init_of_B ∧
  classes before_init_of_B !! 2 = Some (Class "B" [1; 0] ∅) ∧
  ∃ st' c' cat, meta_init 2 "B" [1] bodyB before_init_of_B = Ok st' ∧
    classes st' !! 2 = Some c' ∧ c_name c' = "B" ∧
    types_catalog st' 2 = Some cat ∧
    (∀ v d fn, v ∈ bodyB → entry_point_of v = Some (d, fn) →
       is_Some (cat !! d) ∧ descr_names st' !! d = Some (c_name c')) ∧
    (∀ d, (∀ v fn, v ∈ bodyB → entry_point_of v ≠ Some (d, fn)) →
       cat !! d = default ∅ (types_catalog before_init_of_B 2) !! d ∧
       descr_names st' !! d = descr_names before_init_of_B !! d).
Proof.
  split; [vm_compute; exact I|]. split; [reflexivity|].
  apply (declared_descriptors_take_class_name before_init_of_B 2
           (Class "B" [1; 0] ∅) "B" [1] bodyB);
    [vm_compute; exact I|reflexivity|discriminate].
Defined.

(** The descriptor that [A] declared is in the catalog of [B] and still
    displays A. *)
Lemma inherited_descriptor_keeps_declaring_name :
  c_name <$> classes scenario_inherited_entry !! 2 = Some "B" ∧
  types_catalog scenario_inherited_entry 2 ≫= (.!! 7) = Some "run" ∧
  descr_names scenario_inherited_entry !! 7 = Some "A" ∧
  ¬ display_names_are_class_name scenario_inherited_entry 2.
Proof.
  assert (types_catalog scenario_inherited_entry 2 = Some {[7 := "run"]})
    as Hcat by (vm_compute; reflexivity).
  assert (descr_names scenario_inherited_entry !! 7 = Some "A") as Hname
    by (vm_compute; reflexivity).
  split_and!; [done|by rewrite Hcat|done|].
  intros H.
  assert (is_Some (({[7 := "run"]} : gmap nat string) !! 7)) as Hin
    by (rewrite lookup_singleton_eq; by eexists).
  specialize (H (Class "B" [1; 0] (∅ : gmap string nat)) _ 7 eq_refl Hcat Hin).
  rewrite Hname in H. discriminate H.
Qed.

(** ** Classes that find no catalog to inherit *)

Lemma declared_iff dct d :
  d ∈ ((scan dct).2).*1 ↔ ∃ v fn, v ∈ dct ∧ entry_point_of v = Some (d, fn).
Proof.
  rewrite scan_types. split.
  - intros Hin. apply list_elem_of_fmap in Hin as ([d' fn] & -> & Hin).
    apply list_elem_of_omap in Hin as (v & Hv & He). by exists v, fn.
  - intros (v & fn & Hv & He). apply list_elem_of_fmap. exists (d, fn).
    split; [done|]. apply list_elem_of_omap. by exists v.
Qed.

Lemma meta_init_fresh st cls c name bases dct :
  classes st !! cls = Some c → c_name c ≠ "WorkflowDefinition" →
  getattr st cls WORKFLOW_SIGNALS = None →
  getattr st cls WORKFLOW_TYPES = None →
  meta_init cls name bases dct st =
  Ok (let r := register_types (c_name c) (scan dct).2 (descr_names st) in
      setattr cls WORKFLOW_TYPES (length (type_dicts st))
        (State (classes (setattr cls WORKFLOW_SIGNALS
                           (length (signal_dicts st)) st))
               (signal_dicts st ++ [(scan dct).1])
               (type_dicts st ++ [r.1]) r.2)).
Proof.
  intros Hc Hn Hs Ht. unfold meta_init. rewrite Hc.
  rewrite decide_False by done.
  unfold attach_signals. rewrite hasattr_getattr, Hs. simpl.
  unfold attach_types. rewrite hasattr_getattr.
  match goal with
  | |- context [getattr ?s cls WORKFLOW_TYPES] =>
      change (getattr s cls WORKFLOW_TYPES)
        with (getattr (setattr cls WORKFLOW_SIGNALS
                         (length (signal_dicts st)) st) cls WORKFLOW_TYPES)
  end.
  rewrite getattr_setattr_ne_attr by done. rewrite Ht. done.
Qed.

(** C7.  Two siblings [A(W)] and [C(W)], whatever their bodies: each one's
    catalogs hold exactly what its own body declares, hence nothing that
    only the other declares, and the base class has no catalog. *)
Theorem siblings_do_not_share nameA nameC bodyA bodyC :
  nameA ≠ "WorkflowDefinition" → nameC ≠ "WorkflowDefinition" →
  ∃ stA stC tA tC,
    class_stmt nameA [0] bodyA base_state = Ok (1, stA) ∧
    class_stmt nameC [0] bodyC stA = Ok (2, stC) ∧
    signal_catalog stC 1 = Some (scan bodyA).1 ∧
    signal_catalog stC 2 = Some (scan bodyC).1 ∧
    types_catalog stC 1 = Some tA ∧
    types_catalog stC 2 = Some tC ∧
    (∀ d, is_Some (tA !! d) ↔
          ∃ v fn, v ∈ bodyA ∧ entry_point_of v = Some (d, fn)) ∧
    (∀ d, is_Some (tC !! d) ↔
          ∃ v fn, v ∈ bodyC ∧ entry_point_of v = Some (d, fn)) ∧
    signal_catalog stC 0 = None ∧ types_catalog stC 0 = None.
Proof.
  intros HA HC.
  pose (rA := register_types nameA (scan bodyA).2 ∅).
  pose (stA := State [Class "WorkflowDefinition" [] ∅;
                      Class nameA [0]
                        (<[WORKFLOW_TYPES := 0]> (<[WORKFLOW_SIGNALS := 0]> ∅))]
                     [(scan bodyA).1] [rA.1] rA.2).
  pose (rC := register_types nameC (scan bodyC).2 rA.2).
  pose (stC := State [Class "WorkflowDefinition" [] ∅;
                      Class nameA [0]
                        (<[WORKFLOW_TYPES := 0]> (<[WORKFLOW_SIGNALS := 0]> ∅));
                      Class nameC [0]
                        (<[WORKFLOW_TYPES := 1]> (<[WORKFLOW_SIGNALS := 1]> ∅))]
                     [(scan bodyA).1; (scan bodyC).1] [rA.1; rC.1] rC.2).
  exists stA, stC, rA.1, rC.1.
  split_and!; try reflexivity.
  - unfold class_stmt.
    change (type_new nameA [0] base_state)
      with (Ok (1, State [Class "WorkflowDefinition" [] ∅; Class nameA [0] ∅]
                         [] [] ∅)).
    simpl. rewrite (meta_init_fresh _ 1 (Class nameA [0] ∅)); done.
  - unfold class_stmt.
    change (type_new nameC [0] stA)
      with (Ok (2, State (classes stA ++ [Class nameC [0] ∅])
                         (signal_dicts stA) (type_dicts stA) (descr_names stA))).
    simpl. rewrite (meta_init_fresh _ 2 (Class nameC [0] ∅)); done.
  - intros d. unfold rA. by rewrite register_types_catalog_dom, declared_iff.
  - intros d. unfold rC. by rewrite register_types_catalog_dom, declared_iff.
Qed.

Lemma siblings_do_not_share_witness :
  "A" ≠ "WorkflowDefinition" ∧ "C" ≠ "WorkflowDefinition" ∧
  ∃ stA stC tA tC,
    class_stmt "A" [0] bodyB base_state = Ok (1, stA) ∧
    class_stmt "C" [0] [Decorated h3] stA = Ok (2, stC) ∧
    signal_catalog stC 1 = Some (scan bodyB).1 ∧
    signal_catalog stC 2 = Some (scan [Decorated h3]).1 ∧
    types_catalog stC 1 = Some tA ∧
    types_catalog stC 2 = Some tC ∧
    (∀ d, is_Some (tA !! d) ↔
          ∃ v fn, v ∈ bodyB ∧ entry_point_of v = Some (d, fn)) ∧
    (∀ d, is_Some (tC !! d) ↔
          ∃ v fn, v ∈ [Decorated h3] ∧ entry_point_of v = Some (d, fn)) ∧
    signal_catalog stC 0 = None ∧ types_catalog stC 0 = None.
Proof.
  split; [discriminate|]. split; [discriminate|].
  apply (siblings_do_not_share "A" "C" bodyB [Decorated h3]); discriminate.
Defined.

(** ** The exemption by name, and members with both tags *)



(** C10.  A member whose options hold both a signal type and a workflow
    type is cataloged as a signal handler only: the loop adds it to
    [signals] and leaves [_workflow_types] alone.  When no other member of
    the body declares the same descriptor, the construction of the class
    neither renames the descriptor nor enters it in the entry-point
    catalog. *)
Theorem signal_type_takes_precedence st cls c name bases dct func sty wt :
  wf st → classes st !! cls = Some c → c_name c ≠ "WorkflowDefinition" →
  Decorated func ∈ dct →
  fn_swf_options func = Some (SwfOptions (Some sty) (Some wt)) →
  (∀ f' swf', Decorated f' ∈ dct → f' ≠ func →
     fn_swf_options f' = Some swf' → opt_workflow_type swf' ≠ Some wt) →
  (∀ acc, scan_step acc (Decorated func)
          = (<[st_name sty := func]> acc.1, acc.2)) ∧
  (∀ fn, (wt, fn) ∉ (scan dct).2) ∧
  ∃ st' scat tcat, meta_init cls name bases dct st = Ok st' ∧
    signal_catalog st' cls = Some scat ∧
    is_Some (scat !! st_name sty) ∧
    types_catalog st' cls = Some tcat ∧
    tcat !! wt = default ∅ (types_catalog st cls) !! wt ∧
    descr_names st' !! wt = descr_names st !! wt.
Proof.
  intros Hwf Hc Hn Hin Hopt Hother.
  assert (∀ v fn, v ∈ dct → entry_point_of v ≠ Some (wt, fn)) as Hnone.
  { intros [f'|] fn Hv He; [|done]. simpl in He.
    destruct (fn_swf_options f') as [swf'|] eqn:Hswf; [|done]. simpl in He.
    destruct (opt_signal_type swf') eqn:Hsig; [done|].
    destruct (opt_workflow_type swf') as [wt'|] eqn:Hwt; [|done].
    simpl in He. injection He as -> _.
    apply (Hother f' swf' Hv); [|done..].
    intros ->. rewrite Hopt in Hswf. injection Hswf as <-. done. }
  split_and!.
  - intros acc. unfold scan_step. by rewrite Hopt.
  - intros fn Hfn.
    assert (wt ∈ ((scan dct).2).*1) as Hd.
    { apply list_elem_of_fmap. by exists (wt, fn). }
    apply declared_iff in Hd as (v & fn' & Hv & He). by apply (Hnone v fn').
  - destruct (meta_init_spec st cls c name bases dct Hwf Hc Hn)
      as (st' & Hm & _ & _ & Hs & _).
    destruct (meta_init_entry_points st cls c name bases dct Hwf Hc Hn)
      as (st2 & c' & tcat & Hm2 & _ & _ & Ht & _ & Hkeep).
    assert (st2 = st') as -> by congruence.
    destruct (Hkeep wt Hnone) as [Hcat Hname].
    eexists st', _, tcat. split_and!; try done.
    rewrite lookup_union.
    destruct (scan_signals_key dct (Decorated func) (st_name sty) func Hin)
      as [f Hf]; [simpl; by rewrite Hopt|].
    rewrite Hf. by destruct (default ∅ (signal_catalog st cls) !! st_name sty).
Qed.

Lemma signal_type_takes_precedence_witness :
  let func := both_func 6 "on_both" "both" 11 in
  wf before_init_of_B ∧
  classes before_init_of_B !! 2 = Some (Class "B" [1; 0] ∅) ∧
  Decorated func ∈ bodyB ∧
  (∀ acc, scan_step acc (Decorated func) = (<["both" := func]> acc.1, acc.2)) ∧
  (∀ fn, (11, fn) ∉ (scan bodyB).2) ∧
  ∃ st' scat tcat, meta_init 2 "B" [1] bodyB before_init_of_B = Ok st' ∧
    signal_catalog st' 2 = Some scat ∧
    is_Some (scat !! "both") ∧
    types_catalog st' 2 = Some tcat ∧
    tcat !! 11 = default ∅ (types_catalog before_init_of_B 2) !! 11 ∧
    descr_names st' !! 11 = descr_names before_init_of_B !! 11.
Proof.
  intros func.
  assert (Decorated func ∈ bodyB) as Hin by (do 3 right; left).
  split; [vm_compute; exact I|]. split; [reflexivity|]. split; [exact Hin|].
  apply (signal_type_takes_precedence before_init_of_B 2
           (Class "B" [1; 0] ∅) "B" [1] bodyB func (SignalType "both") 11);
    [vm_compute; exact I|reflexivity|discriminate|exact Hin|reflexivity|].
  intros f' swf' Hf' Hne Hswf Hwt.
  unfold bodyB in Hf'.
  repeat (apply elem_of_cons in Hf' as [Hf'|Hf']);
    try (by apply elem_of_nil in Hf'); try discriminate Hf';
    injection Hf' as ->; try (by apply Hne);
    simpl in Hswf; injection Hswf as <-; discriminate Hwt.
Defined.

(** ** Sharing between a class and its ancestors *)

(** C1, on the code.  In scenario B the class [B(A)] finds the dict of [A]
    through attribute lookup and updates it in place: after the construction
    of [B] both classes resolve [_workflow_signals] to the same dict, and the
    catalog of [A] maps ping to h2, no longer to h1. *)
Theorem scenarioB_update_reaches_ancestor :
  class_stmt "B" [1] [Decorated h2] scenarioB_before = Ok (2, scenarioB_after) ∧
  signal_catalog scenarioB_before 1 = Some {["ping" := h1]} ∧
  signal_catalog scenarioB_after 2 = Some {["ping" := h2]} ∧
  signal_catalog scenarioB_after 1 = Some {["ping" := h2]} ∧
  getattr scenarioB_after 2 WORKFLOW_SIGNALS
    = getattr scenarioB_after 1 WORKFLOW_SIGNALS ∧
  ¬ ancestors_unchanged scenarioB_before scenarioB_after 2.
Proof.
  assert (signal_catalog scenarioB_before 1 = Some {["ping" := h1]}) as Hb
    by (vm_compute; reflexivity).
  assert (signal_catalog scenarioB_after 1 = Some {["ping" := h2]}) as Ha
    by (vm_compute; reflexivity).
  split_and!; try (vm_compute; reflexivity); try done.
  intros H. destruct (H 1) as [Hs _].
  { change (1 ∈ [1; 0]). left. }
  rewrite Ha, Hb in Hs.
  apply (f_equal (λ o : option (gmap string func_obj), o ≫= (.!! "ping")))
    in Hs.
  simpl in Hs. rewrite !lookup_singleton_eq in Hs. discriminate Hs.
Qed.

(** ** The base class *)

Lemma reachable_base_class st :
  reachable st →
  classes st !! 0 = Some (Class "WorkflowDefinition" [] ∅).
Proof.
  induction 1 as [|st name bases dct cls st' _ IH Hstep]; [done|].
  rewrite (class_stmt_classes _ _ _ _ _ _ 0 Hstep); [done|].
  by apply lookup_lt_Some in IH.
Qed.

(** C3.  The class statement of the base class attaches nothing to it, and
    whatever class statements follow, the base class object keeps an empty
    namespace as far as the catalogs go: neither attribute resolves on it,
    so it has no signal catalog and no entry-point catalog. *)
Theorem base_class_has_no_catalog body st :
  reachable st →
  class_stmt "WorkflowDefinition" [] body init_state = Ok (0, base_state) ∧
  classes st !! 0 = Some (Class "WorkflowDefinition" [] ∅) ∧
  hasattr st 0 WORKFLOW_SIGNALS = false ∧
  hasattr st 0 WORKFLOW_TYPES = false ∧
  signal_catalog st 0 = None ∧ types_catalog st 0 = None.
Proof.
  intros Hr. apply reachable_base_class in Hr.
  assert (∀ a, getattr st 0 a = None) as Hg.
  { intros a. unfold getattr, mro. rewrite Hr. simpl.
    unfold own_attr. rewrite Hr. simpl. by rewrite lookup_empty. }
  unfold hasattr, signal_catalog, types_catalog. rewrite !Hg.
  split_and!; try done.
Qed.

Lemma scenarioB_reachable : reachable scenarioB_after.
Proof.
  apply (reach_class scenarioB_before "B" [1] [Decorated h2] 2);
    [|vm_compute; reflexivity].
  apply (reach_class base_state "A" [0] [Decorated h1] 1);
    [apply reach_base|vm_compute; reflexivity].
Defined.

Lemma base_class_has_no_catalog_witness :
  reachable scenarioB_after ∧
  class_stmt "WorkflowDefinition" [] [Plain; Plain] init_state
    = Ok (0, base_state) ∧
  classes scenarioB_after !! 0 = Some (Class "WorkflowDefinition" [] ∅) ∧
  hasattr scenarioB_after 0 WORKFLOW_SIGNALS = false ∧
  hasattr scenarioB_after 0 WORKFLOW_TYPES = false ∧
  signal_catalog scenarioB_after 0 = None ∧
  types_catalog scenarioB_after 0 = None.
Proof.
  split; [exact scenarioB_reachable|].
  apply (base_class_has_no_catalog [Plain; Plain] scenarioB_after).
  exact scenarioB_reachable.
Defined.

(** ** Instances *)

Lemma initialised_iff self :
  initialised self ↔
  is_Some (__workflow_execution self) ∧ is_Some (__workflow_state self) ∧
  is_Some (_workflow_result self).
Proof.
  unfold initialised. rewrite !andb_True, !bool_decide_spec. tauto.
Qed.

Lemma apply_op_frame self o :
  initialised self →
  ∃ self', apply_op self o = Ok self' ∧ initialised self' ∧
    (sets_execution o = false →
       __workflow_execution self' = __workflow_execution self) ∧
    (sets_state o = false → __workflow_state self' = __workflow_state self) ∧
    (resolves o = false → _workflow_result self' = _workflow_result self).
Proof.
  intros Hi. pose proof Hi as Hi'.
  apply initialised_iff in Hi' as ([e He] & [s Hs] & [r Hr]).
  destruct o; simpl;
    unfold workflow_execution, workflow_state, workflow_result;
    rewrite ?He, ?Hs, ?Hr; simpl;
    eexists; (split; [reflexivity|]); split_and!; try done;
    apply initialised_iff; simpl; rewrite ?He, ?Hs, ?Hr; by split_and!.
Qed.

Lemma run_ops_frame ops self :
  initialised self →
  ∃ self', run_ops ops self = Ok self' ∧ initialised self' ∧
    (forallb (λ o, negb (sets_execution o)) ops = true →
       __workflow_execution self' = __workflow_execution self) ∧
    (forallb (λ o, negb (sets_state o)) ops = true →
       __workflow_state self' = __workflow_state self) ∧
    (forallb (λ o, negb (resolves o)) ops = true →
       _workflow_result self' = _workflow_result self).
Proof.
  revert self. induction ops as [|o ops IH]; intros self Hi.
  - exists self. by split_and!.
  - destruct (apply_op_frame self o Hi) as (s1 & H1 & Hi1 & He1 & Hs1 & Hr1).
    destruct (IH s1 Hi1) as (s2 & H2 & Hi2 & He2 & Hs2 & Hr2).
    exists s2. simpl. rewrite H1. simpl. split_and!; try done.
    + intros [Ho Hops]%andb_prop. rewrite He2 by done. apply He1.
      by destruct (sets_execution o).
    + intros [Ho Hops]%andb_prop. rewrite Hs2 by done. apply Hs1.
      by destruct (sets_state o).
    + intros [Ho Hops]%andb_prop. rewrite Hr2 by done. apply Hr1.
      by destruct (resolves o).
Qed.

Lemma workflow_execution_setter_overwrites self y :
  workflow_execution (workflow_execution_setter self y) = Ok y.
Proof. done. Qed.

(** C5.  Constructing an instance returns for every identity.  The
    [workflow_execution] getter then gives back the identity as it was
    passed, [workflow_state] gives the empty string and [workflow_result]
    gives None; and after any run of operations, every one of which
    returns, the state is still the empty string if none of them set the
    state, and the result is still None if none of them assigned it. *)
Theorem construct_initialises (x : pyobj) :
  ∃ self, construct x = Ok self ∧
    workflow_execution self = Ok x ∧
    workflow_state self = Ok (PyStr "") ∧
    workflow_result self = Ok PyNone ∧
    ∀ ops, ∃ self', run_ops ops self = Ok self' ∧
      (forallb (λ o, negb (sets_state o)) ops = true →
         workflow_state self' = Ok (PyStr "")) ∧
      (forallb (λ o, negb (resolves o)) ops = true →
         workflow_result self' = Ok PyNone).
Proof.
  eexists. split; [reflexivity|]. split_and!; try reflexivity.
  intros ops.
  match goal with
  | |- ∃ _, run_ops ops ?s = _ ∧ _ =>
      destruct (run_ops_frame ops s) as (self' & Hrun & _ & _ & Hs & Hr);
        [done|]
  end.
  exists self'. split; [done|]. unfold workflow_state, workflow_result.
  split; intros Hops; [rewrite Hs by done|rewrite Hr by done]; done.
Qed.

Lemma construct_initialises_witness :
  ∃ self, construct identityC = Ok self ∧
    workflow_execution self = Ok identityC ∧
    workflow_state self = Ok (PyStr "") ∧
    workflow_result self = Ok PyNone ∧
    ∀ ops, ∃ self', run_ops ops self = Ok self' ∧
      (forallb (λ o, negb (sets_state o)) ops = true →
         workflow_state self' = Ok (PyStr "")) ∧
      (forallb (λ o, negb (resolves o)) ops = true →
         workflow_result self' = Ok PyNone).
Proof. exact (construct_initialises identityC). Defined.

(** C6.  No run of the operations of the public contract (reading the
    identity, reading or setting the state, reading the result) changes the
    identity: every such run returns and the [workflow_execution] getter
    still gives the value passed to the constructor. *)
Theorem public_operations_keep_identity (x : pyobj) (ops : list public_op) :
  ∃ self self', construct x = Ok self ∧
    run_ops (of_public <$> ops) self = Ok self' ∧
    workflow_execution self' = Ok x.
Proof.
  set (self := Instance (Some x) (Some (PyStr "")) (Some PyNone)).
  exists self.
  destruct (run_ops_frame (of_public <$> ops) self)
    as (self' & Hrun & _ & He & _).
  - done.
  - exists self'. split; [reflexivity|]. split; [exact Hrun|].
    unfold workflow_execution. rewrite He; [done|].
    clear. induction ops as [|o ops IH]; [done|].
    rewrite fmap_cons. simpl. apply andb_true_intro. split; [by destruct o|].
    exact IH.
Qed.

(** * Further properties *)

(** ** The store after [__init__] *)

Lemma list_alter_insert {A} (f : A → A) (l : list A) i x :
  l !! i = Some x → alter f i l = <[i := f x]> l.
Proof.
  intros H. apply list_eq. intros j.
  destruct (decide (i = j)) as [<-|Hne].
  - rewrite list_lookup_alter_eq, H. simpl.
    rewrite list_lookup_insert_eq; [done|]. by apply lookup_lt_Some in H.
  - by rewrite list_lookup_alter_ne, list_lookup_insert_ne.
Qed.

Lemma getattr_setattr_outside cls a a' l st k :
  cls ∉ mro st k → getattr (setattr cls a l st) k a' = getattr st k a'.
Proof.
  intros Hk. unfold getattr. rewrite mro_setattr.
  f_equal. apply omap_ext_in. intros x Hx.
  apply own_attr_setattr_ne_cls. intros ->. done.
Qed.

Lemma meta_init_explicit st cls c name bases dct :
  wf st → classes st !! cls = Some c → c_name c ≠ "WorkflowDefinition" →
  meta_init cls name bases dct st = Ok (state_after st cls (c_name c) dct).
Proof.
  intros Hwf Hc Hn. unfold meta_init. rewrite Hc, decide_False by done.
  unfold state_after, classes_after, signals_after, types_after.
  unfold attach_signals. rewrite hasattr_getattr.
  destruct (getattr st cls WORKFLOW_SIGNALS) as [l|] eqn:Hs; simpl.
  - pose proof (wf_getattr_signals _ _ _ Hwf Hs) as Hl.
    destruct (lookup_lt_is_Some_2 _ _ Hl) as [d Hd]. rewrite Hd. simpl.
    unfold attach_types. rewrite hasattr_getattr.
    change (getattr (set_descr_names _ _) cls WORKFLOW_TYPES)
      with (getattr st cls WORKFLOW_TYPES).
    rewrite (list_alter_insert _ _ _ d Hd).
    destruct (getattr st cls WORKFLOW_TYPES) as [lt|] eqn:Ht; simpl.
    + pose proof (wf_getattr_types _ _ _ Hwf Ht) as Hlt.
      destruct (lookup_lt_is_Some_2 _ _ Hlt) as [dt Hdt]. rewrite Hdt.
      by rewrite (list_alter_insert _ _ _ dt Hdt).
    + done.
  - unfold attach_types. rewrite hasattr_getattr.
    match goal with
    | |- context [getattr ?s cls WORKFLOW_TYPES] =>
        change (getattr s cls WORKFLOW_TYPES)
          with (getattr (setattr cls WORKFLOW_SIGNALS
                           (length (signal_dicts st)) st) cls WORKFLOW_TYPES)
    end.
    rewrite getattr_setattr_ne_attr by done.
    destruct (getattr st cls WORKFLOW_TYPES) as [lt|] eqn:Ht; simpl.
    + pose proof (wf_getattr_types _ _ _ Hwf Ht) as Hlt.
      destruct (lookup_lt_is_Some_2 _ _ Hlt) as [dt Hdt]. rewrite Hdt.
      by rewrite (list_alter_insert _ _ _ dt Hdt).
    + done.
Qed.

Lemma getattr_signals_after st cls cname dct k :
  getattr (state_after st cls cname dct) k WORKFLOW_SIGNALS =
  match getattr st cls WORKFLOW_SIGNALS with
  | Some _ => getattr st k WORKFLOW_SIGNALS
  | None =>
      getattr (setattr cls WORKFLOW_SIGNALS (length (signal_dicts st)) st)
              k WORKFLOW_SIGNALS
  end.
Proof.
  unfold state_after, classes_after.
  destruct (getattr st cls WORKFLOW_TYPES) as [lt|].
  - by destruct (getattr st cls WORKFLOW_SIGNALS).
  - match goal with
    | |- getattr (State (alter _ cls ?cl) ?s ?t ?n) k _ = _ =>
        change (getattr (State (alter _ cls cl) s t n) k WORKFLOW_SIGNALS)
          with (getattr (setattr cls WORKFLOW_TYPES (length (type_dicts st))
                           (State cl s t n)) k WORKFLOW_SIGNALS)
    end.
    rewrite getattr_setattr_ne_attr by done.
    by destruct (getattr st cls WORKFLOW_SIGNALS).
Qed.

Lemma getattr_types_after st cls cname dct k :
  getattr (state_after st cls cname dct) k WORKFLOW_TYPES =
  match getattr st cls WORKFLOW_TYPES with
  | Some _ => getattr st k WORKFLOW_TYPES
  | None =>
      getattr (setattr cls WORKFLOW_TYPES (length (type_dicts st)) st)
              k WORKFLOW_TYPES
  end.
Proof.
  unfold state_after, classes_after.
  destruct (getattr st cls WORKFLOW_SIGNALS) as [ls|].
  - by destruct (getattr st cls WORKFLOW_TYPES).
  - destruct (getattr st cls WORKFLOW_TYPES) as [lt|].
    + change (getattr (State (alter ?f cls (classes st)) ?s ?t ?n) k
                WORKFLOW_TYPES)
        with (getattr (setattr cls WORKFLOW_SIGNALS
                         (length (signal_dicts st)) st) k WORKFLOW_TYPES).
      by rewrite getattr_setattr_ne_attr.
    + unfold getattr.
      change (mro (State (alter ?f cls (alter ?g cls (classes st))) ?s ?t ?n) k)
        with (mro (setattr cls WORKFLOW_TYPES (length (type_dicts st))
                     (setattr cls WORKFLOW_SIGNALS
                        (length (signal_dicts st)) st)) k).
      rewrite !mro_setattr. f_equal. apply omap_ext_in. intros j _.
      unfold own_attr, setattr, bind_attr. simpl.
      rewrite !list_lookup_alter.
      destruct (decide (cls = j)) as [<-|Hne]; [|done].
      rewrite decide_True by done.
      destruct (classes st !! cls); simpl; [|done].
      by rewrite !lookup_insert_eq.
Qed.

(** The resolution of an attribute on a class outside of which [cls] lies
    is the same before and after. *)
Lemma getattr_after_outside st cls cname dct k a :
  a = WORKFLOW_SIGNALS ∨ a = WORKFLOW_TYPES → cls ∉ mro st k →
  getattr (state_after st cls cname dct) k a = getattr st k a.
Proof.
  intros [-> | ->] Hk.
  - rewrite getattr_signals_after.
    destruct (getattr st cls WORKFLOW_SIGNALS); [done|].
    by apply getattr_setattr_outside.
  - rewrite getattr_types_after.
    destruct (getattr st cls WORKFLOW_TYPES); [done|].
    by apply getattr_setattr_outside.
Qed.

Lemma signal_dict_after_inherited st cls own l :
  getattr st cls WORKFLOW_SIGNALS = Some l →
  signals_after st cls own !! l = (λ d, own ∪ d) <$> signal_dicts st !! l.
Proof.
  intros H. unfold signals_after. rewrite H. apply list_lookup_alter_eq.
Qed.

Lemma type_dict_after_inherited st cls own l :
  getattr st cls WORKFLOW_TYPES = Some l →
  types_after st cls own !! l = (λ d, own ∪ d) <$> type_dicts st !! l.
Proof.
  intros H. unfold types_after. rewrite H. apply list_lookup_alter_eq.
Qed.

Lemma signal_dict_after_other st cls own l :
  l < length (signal_dicts st) → getattr st cls WORKFLOW_SIGNALS ≠ Some l →
  signals_after st cls own !! l = signal_dicts st !! l.
Proof.
  intros Hl H. unfold signals_after.
  destruct (getattr st cls WORKFLOW_SIGNALS) as [l'|].
  - apply list_lookup_alter_ne. congruence.
  - by apply lookup_app_l.
Qed.

Lemma type_dict_after_other st cls own l :
  l < length (type_dicts st) → getattr st cls WORKFLOW_TYPES ≠ Some l →
  types_after st cls own !! l = type_dicts st !! l.
Proof.
  intros Hl H. unfold types_after.
  destruct (getattr st cls WORKFLOW_TYPES) as [l'|].
  - apply list_lookup_alter_ne. congruence.
  - by apply lookup_app_l.
Qed.

(** ** Who sees an update, and who does not *)

(** X1.  When the class under construction resolves a catalog attribute to
    an inherited dict, the update is written into that dict object: every
    class that resolved the attribute to the same dict (the ancestor that
    owns it, and every other class that shares it) has, after the
    construction, the new entries laid over the old contents as its
    catalog. *)
Theorem update_reaches_every_sharer st cls c name bases dct :
  wf st → classes st !! cls = Some c → c_name c ≠ "WorkflowDefinition" →
  ∃ st', meta_init cls name bases dct st = Ok st' ∧
    (∀ l d k, getattr st cls WORKFLOW_SIGNALS = Some l →
       signal_dicts st !! l = Some d →
       getattr st k WORKFLOW_SIGNALS = Some l →
       signal_catalog st' k = Some ((scan dct).1 ∪ d)) ∧
    (∀ l d k, getattr st cls WORKFLOW_TYPES = Some l →
       type_dicts st !! l = Some d →
       getattr st k WORKFLOW_TYPES = Some l →
       types_catalog st' k
       = Some ((register_types (c_name c) (scan dct).2 (descr_names st)).1
               ∪ d)).
Proof.
  intros Hwf Hc Hn. eexists. split; [by apply meta_init_explicit|].
  split; intros l d k Hcls Hd Hk.
  - unfold signal_catalog. rewrite getattr_signals_after, Hcls, Hk. simpl.
    unfold state_after. simpl.
    by rewrite (signal_dict_after_inherited _ _ _ l Hcls), Hd.
  - unfold types_catalog. rewrite getattr_types_after, Hcls, Hk. simpl.
    unfold state_after. simpl.
    by rewrite (type_dict_after_inherited _ _ _ l Hcls), Hd.
Qed.

Lemma update_reaches_every_sharer_witness :
  wf before_init_of_B ∧
  classes before_init_of_B !! 2 = Some (Class "B" [1; 0] ∅) ∧
  ∃ st', meta_init 2 "B" [1] bodyB before_init_of_B = Ok st' ∧
    (∀ l d k, getattr before_init_of_B 2 WORKFLOW_SIGNALS = Some l →
       signal_dicts before_init_of_B !! l = Some d →
       getattr before_init_of_B k WORKFLOW_SIGNALS = Some l →
       signal_catalog st' k = Some ((scan bodyB).1 ∪ d)) ∧
    (∀ l d k, getattr before_init_of_B 2 WORKFLOW_TYPES = Some l →
       type_dicts before_init_of_B !! l = Some d →
       getattr before_init_of_B k WORKFLOW_TYPES = Some l →
       types_catalog st' k
       = Some ((register_types "B" (scan bodyB).2
                  (descr_names before_init_of_B)).1 ∪ d)).
Proof.
  split; [vm_compute; exact I|]. split; [reflexivity|].
  apply (update_reaches_every_sharer before_init_of_B 2
           (Class "B" [1; 0] ∅) "B" [1] bodyB);
    [vm_compute; exact I|reflexivity|discriminate].
Defined.

(** X2.  The construction of a class leaves alone the catalog of every
    class that does not have it in its resolution order and does not
    resolve the attribute to the dict that the new class inherits. *)
Theorem unrelated_catalogs_untouched st cls c name bases dct k :
  wf st → classes st !! cls = Some c → cls ∉ mro st k →
  ∃ st', meta_init cls name bases dct st = Ok st' ∧
    ((∀ l, getattr st k WORKFLOW_SIGNALS = Some l →
           getattr st cls WORKFLOW_SIGNALS ≠ Some l) →
     signal_catalog st' k = signal_catalog st k) ∧
    ((∀ l, getattr st k WORKFLOW_TYPES = Some l →
           getattr st cls WORKFLOW_TYPES ≠ Some l) →
     types_catalog st' k = types_catalog st k).
Proof.
  intros Hwf Hc Hk.
  destruct (decide (c_name c = "WorkflowDefinition")) as [Hn|Hn].
  { exists st. by rewrite (meta_init_base _ _ c). }
  eexists. split; [by apply meta_init_explicit|].
  split; intros Hne.
  - unfold signal_catalog.
    rewrite getattr_after_outside by first [done|by left].
    destruct (getattr st k WORKFLOW_SIGNALS) as [l|] eqn:Hg; [|done].
    simpl. unfold state_after. simpl.
    apply signal_dict_after_other; [|by apply Hne].
    by apply (wf_getattr_signals st k).
  - unfold types_catalog.
    rewrite getattr_after_outside by first [done|by right].
    destruct (getattr st k WORKFLOW_TYPES) as [l|] eqn:Hg; [|done].
    simpl. unfold state_after. simpl.
    apply type_dict_after_other; [|by apply Hne].
    by apply (wf_getattr_types st k).
Qed.

Lemma unrelated_catalogs_untouched_witness :
  wf before_init_of_B_beside_C ∧
  classes before_init_of_B_beside_C !! 3 = Some (Class "B" [1; 0] ∅) ∧
  (3 ∉ mro before_init_of_B_beside_C 2) ∧
  ∃ st', meta_init 3 "B" [1] bodyB before_init_of_B_beside_C = Ok st' ∧
    signal_catalog st' 2 = signal_catalog before_init_of_B_beside_C 2 ∧
    types_catalog st' 2 = types_catalog before_init_of_B_beside_C 2.
Proof.
  assert (3 ∉ mro before_init_of_B_beside_C 2) as Hout.
  { apply (bool_decide_unpack _). vm_compute. exact I. }
  split; [vm_compute; exact I|]. split; [reflexivity|]. split; [exact Hout|].
  destruct (unrelated_catalogs_untouched before_init_of_B_beside_C 3
              (Class "B" [1; 0] ∅) "B" [1] bodyB 2)
    as (st' & Hm & Hs & Ht); [vm_compute; exact I|reflexivity|exact Hout|].
  exists st'. split; [exact Hm|]. split.
  - apply Hs. intros l Hl. vm_compute in Hl. injection Hl as <-.
    vm_compute. discriminate.
  - apply Ht. intros l Hl. vm_compute in Hl. injection Hl as <-.
    vm_compute. discriminate.
Defined.

(** ** What later class statements do to the classes that exist *)

Lemma class_stmt_inv name bases dct st cls st' :
  class_stmt name bases dct st = Ok (cls, st') →
  ∃ st1, type_new name bases st = Ok (cls, st1) ∧
         meta_init cls name bases dct st1 = Ok st'.
Proof.
  unfold class_stmt. intros H.
  destruct (type_new name bases st) as [[cls1 st1]|]; [|done]. simpl in H.
  destruct (meta_init cls1 name bases dct st1) as [st2|] eqn:Hm; [|done].
  simpl in H. injection H as <- <-. by exists st1.
Qed.

Lemma type_new_inv name bases st cls st1 :
  type_new name bases st = Ok (cls, st1) →
  ∃ anc, linearise st bases = Some anc ∧ cls = length (classes st) ∧
    st1 = State (classes st ++ [Class name anc ∅]) (signal_dicts st)
                (type_dicts st) (descr_names st).
Proof.
  unfold type_new. intros H.
  destruct (linearise st bases) as [anc|]; [|done].
  injection H as <- <-. by exists anc.
Qed.

Lemma mro_older st k j :
  older st → j ∈ mro st k → j ≤ k ∧ k < length (classes st).
Proof.
  unfold mro. intros Ho Hj.
  destruct (classes st !! k) as [c|] eqn:Hc; [|by apply elem_of_nil in Hj].
  apply lookup_lt_Some in Hc as Hk. split; [|done].
  apply elem_of_cons in Hj as [->|Hj]; [done|].
  pose proof (Ho k c j Hc Hj). lia.
Qed.

Lemma getattr_snoc_class st c k a :
  older st → k < length (classes st) →
  getattr (State (classes st ++ [c]) (signal_dicts st) (type_dicts st)
                 (descr_names st)) k a
  = getattr st k a.
Proof.
  intros Ho Hk. unfold getattr.
  assert (mro (State (classes st ++ [c]) (signal_dicts st) (type_dicts st)
                     (descr_names st)) k = mro st k) as ->.
  { unfold mro. simpl. by rewrite lookup_app_l. }
  f_equal. apply omap_ext_in. intros j Hj.
  apply (mro_older st k j Ho) in Hj as [Hj _].
  unfold own_attr. simpl. rewrite lookup_app_l; [done|lia].
Qed.

Lemma signal_dict_after_grows st cls own l d :
  signal_dicts st !! l = Some d →
  ∃ d', signals_after st cls own !! l = Some d' ∧ dom d ⊆ dom d'.
Proof.
  intros Hd. unfold signals_after.
  destruct (getattr st cls WORKFLOW_SIGNALS) as [l'|].
  - rewrite list_lookup_alter. case_decide as E.
    + subst l'. rewrite Hd. simpl. eexists. split; [done|].
      rewrite dom_union_L. set_solver.
    + by exists d.
  - exists d. split; [|done]. rewrite lookup_app_l; [done|].
    by apply lookup_lt_Some in Hd.
Qed.

Lemma type_dict_after_grows st cls own l d :
  type_dicts st !! l = Some d →
  ∃ d', types_after st cls own !! l = Some d' ∧ dom d ⊆ dom d'.
Proof.
  intros Hd. unfold types_after.
  destruct (getattr st cls WORKFLOW_TYPES) as [l'|].
  - rewrite list_lookup_alter. case_decide as E.
    + subst l'. rewrite Hd. simpl. eexists. split; [done|].
      rewrite dom_union_L. set_solver.
    + by exists d.
  - exists d. split; [|done]. rewrite lookup_app_l; [done|].
    by apply lookup_lt_Some in Hd.
Qed.

(** The effect of one class statement on a class that existed before. *)
Lemma class_stmt_existing st name bases dct cls st' k :
  wf st → older st →
  class_stmt name bases dct st = Ok (cls, st') → k < length (classes st) →
  getattr st' k WORKFLOW_SIGNALS = getattr st k WORKFLOW_SIGNALS ∧
  getattr st' k WORKFLOW_TYPES = getattr st k WORKFLOW_TYPES ∧
  (∀ l d, signal_dicts st !! l = Some d →
     ∃ d', signal_dicts st' !! l = Some d' ∧ dom d ⊆ dom d') ∧
  (∀ l d, type_dicts st !! l = Some d →
     ∃ d', type_dicts st' !! l = Some d' ∧ dom d ⊆ dom d').
Proof.
  intros Hwf Ho Hstep Hk.
  apply class_stmt_inv in Hstep as (st1 & Hnew & Hinit).
  pose proof (wf_type_new _ _ _ _ _ Hwf Hnew) as Hwf1.
  apply type_new_inv in Hnew as (anc & _ & -> & ->).
  set (c := Class name anc ∅) in *.
  set (st1 := State (classes st ++ [c]) _ _ _) in *.
  assert (classes st1 !! length (classes st) = Some c) as Hc
    by apply list_lookup_middle, eq_refl.
  destruct (decide (name = "WorkflowDefinition")) as [Hn|Hn].
  { rewrite (meta_init_base st1 _ c) in Hinit by done.
    injection Hinit as <-. unfold st1.
    rewrite !getattr_snoc_class by done. split_and!; try done.
    - intros l d Hd. by exists d.
    - intros l d Hd. by exists d. }
  rewrite (meta_init_explicit st1 _ c) in Hinit by done.
  injection Hinit as <-.
  assert (length (classes st) ∉ mro st1 k) as Hout.
  { intros Hin.
    assert (mro st1 k = mro st k) as Hm
      by (unfold mro, st1; simpl; by rewrite lookup_app_l).
    rewrite Hm in Hin. apply (mro_older st k _ Ho) in Hin. lia. }
  rewrite !getattr_after_outside by first [done|by left|by right].
  unfold st1 at 1 2. rewrite !getattr_snoc_class by done.
  split_and!; try done.
  - intros l d Hd. by apply signal_dict_after_grows.
  - intros l d Hd. by apply type_dict_after_grows.
Qed.

(** X3.  A class statement never rebinds a catalog attribute of a class
    that exists already, and never removes a name from a catalog: every
    existing class resolves [_workflow_signals] and [_workflow_types] as
    before, and the catalog it reads afterwards has at least the keys it
    had. *)
Theorem existing_catalogs_only_grow st name bases dct cls st' k :
  reachable st → class_stmt name bases dct st = Ok (cls, st') →
  k < length (classes st) →
  getattr st' k WORKFLOW_SIGNALS = getattr st k WORKFLOW_SIGNALS ∧
  getattr st' k WORKFLOW_TYPES = getattr st k WORKFLOW_TYPES ∧
  (∀ d, signal_catalog st k = Some d →
     ∃ d', signal_catalog st' k = Some d' ∧ dom d ⊆ dom d') ∧
  (∀ d, types_catalog st k = Some d →
     ∃ d', types_catalog st' k = Some d' ∧ dom d ⊆ dom d').
Proof.
  intros Hr Hstep Hk.
  pose proof (reachable_wf st Hr) as Hwf.
  destruct (reachable_exclusive st Hr) as [_ Ho].
  destruct (class_stmt_existing st name bases dct cls st' k Hwf Ho Hstep Hk)
    as (Hs & Ht & Hsd & Htd).
  split_and!; try done.
  - unfold signal_catalog. rewrite Hs. intros d Hd.
    destruct (getattr st k WORKFLOW_SIGNALS) as [l|]; [|done].
    by apply Hsd.
  - unfold types_catalog. rewrite Ht. intros d Hd.
    destruct (getattr st k WORKFLOW_TYPES) as [l|]; [|done].
    by apply Htd.
Qed.

Lemma scenarioB_before_reachable : reachable scenarioB_before.
Proof.
  apply (reach_class base_state "A" [0] [Decorated h1] 1);
    [apply reach_base|vm_compute; reflexivity].
Defined.

Lemma existing_catalogs_only_grow_witness :
  reachable scenarioB_before ∧
  class_stmt "B" [1] [Decorated h2] scenarioB_before
    = Ok (2, scenarioB_after) ∧
  1 < length (classes scenarioB_before) ∧
  getattr scenarioB_after 1 WORKFLOW_SIGNALS
    = getattr scenarioB_before 1 WORKFLOW_SIGNALS ∧
  getattr scenarioB_after 1 WORKFLOW_TYPES
    = getattr scenarioB_before 1 WORKFLOW_TYPES ∧
  (∀ d, signal_catalog scenarioB_before 1 = Some d →
     ∃ d', signal_catalog scenarioB_after 1 = Some d' ∧ dom d ⊆ dom d') ∧
  (∀ d, types_catalog scenarioB_before 1 = Some d →
     ∃ d', types_catalog scenarioB_after 1 = Some d' ∧ dom d ⊆ dom d').
Proof.
  assert (class_stmt "B" [1] [Decorated h2] scenarioB_before
          = Ok (2, scenarioB_after)) as Hstep by (vm_compute; reflexivity).
  assert (1 < length (classes scenarioB_before)) as Hk
    by (vm_compute; lia).
  split; [exact scenarioB_before_reachable|]. split; [exact Hstep|].
  split; [exact Hk|].
  exact (existing_catalogs_only_grow scenarioB_before "B" [1]
           [Decorated h2] 2 scenarioB_after 1 scenarioB_before_reachable
           Hstep Hk).
Defined.

(** ** What the scan depends on *)

Lemma scan_step_unclassified acc v : unclassified v → scan_step acc v = acc.
Proof.
  destruct v as [func|]; [|done]. unfold unclassified, scan_step.
  destruct (fn_swf_options func) as [swf|]; [|done].
  destruct (opt_signal_type swf); [done|].
  by destruct (opt_workflow_type swf).
Qed.

Lemma scan_unclassified pre v post :
  unclassified v → scan (pre ++ v :: post) = scan (pre ++ post).
Proof.
  intros Hv. unfold scan. rewrite !foldl_app. simpl.
  by rewrite scan_step_unclassified.
Qed.

Lemma scan_all_unclassified dct :
  forallb unclassified dct → scan dct = (∅, []).
Proof.
  induction dct as [|v dct IH] using rev_ind; [done|].
  rewrite forallb_True, Forall_app, Forall_singleton, <- forallb_True.
  intros [Hd Hv]. rewrite scan_snoc, IH by done.
  by apply scan_step_unclassified.
Qed.

(** X4.  A member without a [func] attribute, whose [func] has no
    [swf_options], or whose options hold neither key, plays no part: the
    construction of the class gives the same store with the member as
    without it, wherever it stands in the body. *)
Theorem unclassified_members_play_no_part cls name bases pre v post st :
  unclassified v →
  meta_init cls name bases (pre ++ v :: post) st
  = meta_init cls name bases (pre ++ post) st.
Proof.
  intros Hv. unfold meta_init. by rewrite (scan_unclassified pre v post).
Qed.

Lemma unclassified_members_play_no_part_witness :
  unclassified (Decorated (Func 8 "helper" None)) ∧
  meta_init 2 "B" [1]
    ([Decorated h2] ++ Decorated (Func 8 "helper" None)
                    :: [Decorated (execute_func 5 "start" 9)])
    before_init_of_B
  = meta_init 2 "B" [1] ([Decorated h2] ++ [Decorated (execute_func 5 "start" 9)])
      before_init_of_B.
Proof.
  split; [exact I|].
  apply (unclassified_members_play_no_part 2 "B" [1] [Decorated h2]
           (Decorated (Func 8 "helper" None))
           [Decorated (execute_func 5 "start" 9)] before_init_of_B).
  exact I.
Defined.

Lemma register_types_nil cname names :
  register_types cname [] names = (∅, names).
Proof. done. Qed.

(** X5.  A class whose body declares nothing: when both catalog attributes
    resolve through its ancestors the store is left exactly as it was (the
    class shares the inherited dicts, nothing is written and no descriptor
    is renamed); when neither resolves and the class is not named
    WorkflowDefinition, it gets two catalogs of its own, both empty. *)
Theorem class_that_declares_nothing st cls c name bases dct :
  wf st → classes st !! cls = Some c → forallb unclassified dct →
  ∃ st', meta_init cls name bases dct st = Ok st' ∧
    (is_Some (getattr st cls WORKFLOW_SIGNALS) →
     is_Some (getattr st cls WORKFLOW_TYPES) → st' = st) ∧
    (c_name c ≠ "WorkflowDefinition" →
     getattr st cls WORKFLOW_SIGNALS = None →
     getattr st cls WORKFLOW_TYPES = None →
     signal_catalog st' cls = Some ∅ ∧ types_catalog st' cls = Some ∅ ∧
     descr_names st' = descr_names st).
Proof.
  intros Hwf Hc Hd. pose proof (scan_all_unclassified dct Hd) as Hscan.
  destruct (decide (c_name c = "WorkflowDefinition")) as [Hn|Hn].
  { exists st. rewrite (meta_init_base _ _ c) by done. by split_and!. }
  rewrite (meta_init_explicit st cls c) by done.
  eexists. split; [done|]. split.
  - intros [ls Hs] [lt Ht].
    unfold state_after, classes_after, signals_after, types_after.
    rewrite Hscan, Hs, Ht. simpl.
    rewrite !list_alter_id by (intros d; apply (left_id_L ∅ (∪))).
    by destruct st.
  - intros _ Hs Ht.
    destruct (meta_init_spec st cls c name bases dct Hwf Hc Hn)
      as (st' & Hm & _ & _ & Hsc & Htc & Hdn).
    rewrite (meta_init_explicit st cls c) in Hm by done.
    injection Hm as <-.
    rewrite Hsc, Htc. unfold signal_catalog, types_catalog.
    rewrite Hs, Ht, Hscan. simpl. rewrite Hscan. simpl.
    by rewrite !(left_id_L ∅ (∪)).
Qed.

Lemma class_that_declares_nothing_witness :
  wf before_init_of_B ∧
  classes before_init_of_B !! 2 = Some (Class "B" [1; 0] ∅) ∧
  forallb unclassified [Plain; Decorated (Func 8 "helper" None)] ∧
  meta_init 2 "B" [1] [Plain; Decorated (Func 8 "helper" None)]
    before_init_of_B = Ok before_init_of_B.
Proof.
  split; [vm_compute; exact I|]. split; [reflexivity|]. split; [exact I|].
  destruct (class_that_declares_nothing before_init_of_B 2
              (Class "B" [1; 0] ∅) "B" [1]
              [Plain; Decorated (Func 8 "helper" None)])
    as (st' & Hm & Hsame & _); [vm_compute; exact I|reflexivity|exact I|].
  rewrite Hm. f_equal. apply Hsame; vm_compute; by eexists.
Defined.

(** ** The order in which the namespace is iterated *)

Lemma foldl_insert_perm {K V} `{Countable K} (l l' : list (K * V))
    (m : gmap K V) :
  NoDup l.*1 → l ≡ₚ l' →
  foldl (λ acc p, <[p.1 := p.2]> acc) m l
  = foldl (λ acc p, <[p.1 := p.2]> acc) m l'.
Proof.
  intros Hnd Hp. revert m Hnd.
  induction Hp as [|x l l' Hp IH|x y l|l1 l2 l3 Hp1 IH1 Hp2 IH2];
    intros m Hnd.
  - done.
  - simpl. apply IH. by inversion Hnd.
  - simpl. rewrite insert_insert_ne; [done|].
    rewrite !fmap_cons in Hnd. apply NoDup_cons in Hnd as [Hy _].
    intros E. apply Hy. rewrite E. left.
  - rewrite IH1 by done. apply IH2. by rewrite <- Hp1.
Qed.

Lemma scan_signals_fold dct :
  (scan dct).1
  = foldl (λ acc p, <[p.1 := p.2]> acc) ∅ (omap signal_of dct).
Proof.
  induction dct as [|v dct IH] using rev_ind; [done|].
  rewrite scan_snoc, omap_app, foldl_app, <- IH.
  unfold scan_step, signal_of.
  destruct v as [func|]; simpl; [|done].
  destruct (fn_swf_options func) as [swf|]; simpl; [|done].
  destruct (opt_signal_type swf) as [sty|]; simpl; [done|].
  by destruct (opt_workflow_type swf).
Qed.

Lemma register_types_fold cname wts names :
  (register_types cname wts names).1
  = foldl (λ acc p, <[p.1 := p.2]> acc) ∅ wts.
Proof.
  induction wts as [|e wts IH] using rev_ind; [done|].
  rewrite register_types_snoc, foldl_app. simpl. by rewrite IH.
Qed.

Lemma register_types_perm cname wts wts' names :
  NoDup wts.*1 → wts ≡ₚ wts' →
  register_types cname wts names = register_types cname wts' names.
Proof.
  intros Hnd Hp.
  rewrite (surjective_pairing (register_types cname wts names)).
  rewrite (surjective_pairing (register_types cname wts' names)).
  f_equal.
  - rewrite !register_types_fold. by apply foldl_insert_perm.
  - apply map_eq. intros d. rewrite !register_types_names.
    assert (d ∈ wts.*1 ↔ d ∈ wts'.*1) as Hiff by (by rewrite Hp).
    repeat case_decide; tauto.
Qed.

(** X6.  The order in which the values of the class namespace are iterated
    does not matter as long as the body declares no signal name twice and
    no descriptor twice: two orders of the same members give the same
    store. *)
Theorem iteration_order_is_irrelevant cls name bases dct dct' st :
  dct ≡ₚ dct' →
  NoDup (omap signal_of dct).*1 → NoDup (omap entry_point_of dct).*1 →
  meta_init cls name bases dct st = meta_init cls name bases dct' st.
Proof.
  intros Hp Hs He.
  assert ((scan dct).1 = (scan dct').1) as E1.
  { rewrite !scan_signals_fold. apply foldl_insert_perm; [done|].
    by rewrite Hp. }
  assert (∀ cname names,
            register_types cname (scan dct).2 names
            = register_types cname (scan dct').2 names) as E2.
  { intros cname names. rewrite !scan_types.
    apply register_types_perm; [done|]. by rewrite Hp. }
  unfold meta_init. rewrite E1.
  destruct (classes st !! cls) as [c|]; [|done].
  case_decide; [done|].
  destruct (attach_signals cls (scan dct').1 st) as [st1|]; [|done].
  simpl. by rewrite E2.
Qed.

Lemma iteration_order_is_irrelevant_witness :
  bodyB ≡ₚ bodyB_reordered ∧
  NoDup (omap signal_of bodyB).*1 ∧ NoDup (omap entry_point_of bodyB).*1 ∧
  meta_init 2 "B" [1] bodyB before_init_of_B
  = meta_init 2 "B" [1] bodyB_reordered before_init_of_B.
Proof.
  assert (bodyB ≡ₚ bodyB_reordered) as Hp.
  { unfold bodyB, bodyB_reordered.
    apply (Permutation_trans
             (l' := Decorated (both_func 6 "on_both" "both" 11)
                    :: [Decorated h2; Plain;
                        Decorated (execute_func 5 "start" 9)])).
    - symmetry.
      apply (Permutation_middle [Decorated h2; Plain;
                                 Decorated (execute_func 5 "start" 9)] []).
    - apply perm_skip, perm_skip, perm_swap. }
  assert (NoDup (omap signal_of bodyB).*1) as Hs.
  { apply (bool_decide_unpack _). vm_compute. exact I. }
  assert (NoDup (omap entry_point_of bodyB).*1) as He.
  { apply (bool_decide_unpack _). vm_compute. exact I. }
  split; [exact Hp|]. split; [exact Hs|]. split; [exact He|].
  exact (iteration_order_is_irrelevant 2 "B" [1] bodyB bodyB_reordered
           before_init_of_B Hp Hs He).
Defined.

(** ** What the catalogs hold *)

Lemma scan_signals_sound dct n f :
  (scan dct).1 !! n = Some f → ∃ v, v ∈ dct ∧ signal_of v = Some (n, f).
Proof.
  induction dct as [|v dct IH] using rev_ind.
  - intros H. change ((∅ : gmap string func_obj) !! n = Some f) in H.
    by rewrite lookup_empty in H.
  - rewrite scan_signals_snoc. intros H.
    destruct (signal_of v) as [[n' f']|] eqn:Hv.
    + case_decide as E.
      * injection H as <-. subst n'. exists v. split; [|done].
        apply elem_of_app. right. left.
      * destruct (IH H) as (w & Hw & Hsw). exists w. split; [|done].
        apply elem_of_app. by left.
    + destruct (IH H) as (w & Hw & Hsw). exists w. split; [|done].
      apply elem_of_app. by left.
Qed.

Lemma signal_of_name v n f :
  signal_of v = Some (n, f) → v = Decorated f ∧ signal_name f = Some n.
Proof.
  destruct v as [func|]; [|done]. unfold signal_of, signal_name.
  destruct (fn_swf_options func) as [swf|] eqn:Hswf; [|done]. simpl.
  destruct (opt_signal_type swf) as [sty|] eqn:Hsty; [|done]. simpl.
  intros [= <- <-]. rewrite Hswf. simpl. by rewrite Hsty.
Qed.

Lemma scan_signals_named dct n f :
  (scan dct).1 !! n = Some f → signal_name f = Some n.
Proof.
  intros H. apply scan_signals_sound in H as (v & _ & Hv).
  by apply signal_of_name in Hv as [_ ?].
Qed.

Lemma signals_after_keyed st cls dct :
  keyed_by_signal_name st →
  ∀ l d n f, signals_after st cls (scan dct).1 !! l = Some d →
    d !! n = Some f → signal_name f = Some n.
Proof.
  intros Hk l d n f Hl Hf. unfold signals_after in Hl.
  destruct (getattr st cls WORKFLOW_SIGNALS) as [l'|].
  - rewrite list_lookup_alter in Hl. case_decide as E.
    + destruct (signal_dicts st !! l') as [d0|] eqn:Hd0; [|done].
      injection Hl as <-.
      apply lookup_union_Some_raw in Hf as [Hf|[_ Hf]].
      * by apply (scan_signals_named dct).
      * by apply (Hk l' d0).
    + by apply (Hk l d).
  - apply lookup_app_Some in Hl as [Hl|[_ Hl]]; [by apply (Hk l d)|].
    apply list_lookup_singleton_Some in Hl as [_ <-].
    by apply (scan_signals_named dct).
Qed.

Lemma class_stmt_keyed name bases dct st cls st' :
  wf st → keyed_by_signal_name st →
  class_stmt name bases dct st = Ok (cls, st') → keyed_by_signal_name st'.
Proof.
  intros Hwf Hk Hstep.
  apply class_stmt_inv in Hstep as (st1 & Hnew & Hinit).
  pose proof (wf_type_new _ _ _ _ _ Hwf Hnew) as Hwf1.
  apply type_new_inv in Hnew as (anc & _ & -> & ->).
  set (c := Class name anc ∅) in *.
  set (st1 := State (classes st ++ [c]) _ _ _) in *.
  assert (classes st1 !! length (classes st) = Some c) as Hc
    by apply list_lookup_middle, eq_refl.
  destruct (decide (name = "WorkflowDefinition")) as [Hn|Hn].
  { rewrite (meta_init_base st1 _ c) in Hinit by done.
    by injection Hinit as <-. }
  rewrite (meta_init_explicit st1 _ c) in Hinit by done.
  injection Hinit as <-.
  intros l d n f Hl. simpl in Hl. revert Hl.
  by apply (signals_after_keyed st1).
Qed.

Lemma reachable_keyed st : reachable st → keyed_by_signal_name st.
Proof.
  induction 1 as [|st name bases dct cls st' Hr IH Hstep].
  - intros l d n f Hl. done.
  - apply (class_stmt_keyed name bases dct st cls); [|done..].
    by apply reachable_wf.
Qed.

(** X7.  In every store that class statements build, every handler of every
    signal catalog is a function whose own [signal_type] carries the name
    it is cataloged under: a catalog never holds a function under another
    name, nor a function that is not a signal handler. *)
Theorem catalog_keys_are_signal_names st k cat n f :
  reachable st → signal_catalog st k = Some cat → cat !! n = Some f →
  signal_name f = Some n.
Proof.
  intros Hr Hcat Hf. unfold signal_catalog in Hcat.
  destruct (getattr st k WORKFLOW_SIGNALS) as [l|]; [|done].
  by apply (reachable_keyed st Hr l cat).
Qed.

Lemma catalog_keys_are_signal_names_witness :
  reachable scenarioB_after ∧
  signal_catalog scenarioB_after 1 = Some {["ping" := h2]} ∧
  ({["ping" := h2]} : gmap string func_obj) !! "ping" = Some h2 ∧
  signal_name h2 = Some "ping".
Proof.
  assert (signal_catalog scenarioB_after 1 = Some {["ping" := h2]}) as Hcat
    by (vm_compute; reflexivity).
  assert (({["ping" := h2]} : gmap string func_obj) !! "ping" = Some h2)
    as Hf by apply lookup_singleton_eq.
  split; [exact scenarioB_reachable|]. split; [exact Hcat|].
  split; [exact Hf|].
  exact (catalog_keys_are_signal_names scenarioB_after 1 _ "ping" h2
           scenarioB_reachable Hcat Hf).
Defined.

(** X8.  The entry-point catalog after the construction of a class whose
    name is not WorkflowDefinition: a descriptor that the body declares is
    mapped to the [__name__] of the last member that declares it, whatever
    the inherited catalog held; every other descriptor is mapped as in the
    inherited catalog.  Nothing else is in it. *)
Theorem entry_points_overlay_inherited st cls c name bases dct :
  wf st → classes st !! cls = Some c → c_name c ≠ "WorkflowDefinition" →
  ∃ st' cat, meta_init cls name bases dct st = Ok st' ∧
    types_catalog st' cls = Some cat ∧
    (∀ pre v post d fn, dct = pre ++ v :: post →
       entry_point_of v = Some (d, fn) →
       (∀ w fn', w ∈ post → entry_point_of w ≠ Some (d, fn')) →
       cat !! d = Some fn) ∧
    (∀ d, (∀ v fn, v ∈ dct → entry_point_of v ≠ Some (d, fn)) →
       cat !! d = default ∅ (types_catalog st cls) !! d) ∧
    (∀ d fn, cat !! d = Some fn →
       (∃ v, v ∈ dct ∧ entry_point_of v = Some (d, fn)) ∨
       default ∅ (types_catalog st cls) !! d = Some fn).
Proof.
  intros Hwf Hc Hn.
  destruct (meta_init_spec st cls c name bases dct Hwf Hc Hn)
    as (st' & Hm & _ & _ & _ & Hcat & _).
  eexists st', _. split; [done|]. split; [done|].
  set (own := (register_types (c_name c) (scan dct).2 (descr_names st)).1).
  assert (own = foldl (λ acc p, <[p.1 := p.2]> acc) ∅
                  (omap entry_point_of dct)) as Hown
    by (unfold own; by rewrite register_types_fold, scan_types).
  split_and!.
  - intros pre v post d fn -> Hv Hpost. apply lookup_union_Some_l.
    rewrite Hown, omap_app, foldl_app. csimpl. rewrite Hv. simpl.
    clear -Hpost. revert Hpost.
    generalize (foldl (λ acc p, <[p.1:=p.2]> acc) (∅ : gmap nat string)
                  (omap entry_point_of pre)).
    intros m.
    induction post as [|w post IH] using rev_ind; intros Hpost.
    + simpl. apply lookup_insert_eq.
    + rewrite omap_app, foldl_app.
      assert (foldl (λ acc p, <[p.1:=p.2]> acc) (<[d:=fn]> m)
                (omap entry_point_of post) !! d = Some fn) as Hrec.
      { apply IH. intros w' fn' Hw'. apply Hpost, elem_of_app. by left. }
      csimpl. destruct (entry_point_of w) as [[d' fn']|] eqn:Hw; [|done].
      simpl. rewrite lookup_insert_ne; [done|]. intros ->.
      apply (Hpost w fn'); [|done]. apply elem_of_app. right. left.
  - intros d Hd. rewrite lookup_union.
    destruct (own !! d) as [fn|] eqn:Hl; [|by rewrite (left_id_L None _)].
    exfalso.
    assert (d ∈ ((scan dct).2).*1) as Hin.
    { apply (register_types_catalog_dom (c_name c) _ (descr_names st)).
      by eexists. }
    apply declared_iff in Hin as (v & fn' & Hv & He). by apply (Hd v fn').
  - intros d fn Hl. apply lookup_union_Some_raw in Hl as [Hl|[_ Hl]];
      [left|by right].
    rewrite Hown in Hl. clear -Hl.
    induction dct as [|v dct IH] using rev_ind;
      [change ((∅ : gmap nat string) !! d = Some fn) in Hl;
       by rewrite lookup_empty in Hl|].
    rewrite omap_app, foldl_app in Hl. csimpl in Hl.
    destruct (entry_point_of v) as [[d' fn']|] eqn:Hv; simpl in Hl.
    + rewrite lookup_insert in Hl. case_decide as E.
      * injection Hl as <-. subst d'. exists v. split; [|done].
        apply elem_of_app. right. left.
      * destruct (IH Hl) as (w & Hw & He). exists w. split; [|done].
        apply elem_of_app. by left.
    + destruct (IH Hl) as (w & Hw & He). exists w. split; [|done].
      apply elem_of_app. by left.
Qed.

Lemma entry_points_overlay_inherited_witness :
  wf before_init_of_B ∧
  classes before_init_of_B !! 2 = Some (Class "B" [1; 0] ∅) ∧
  ∃ st' cat, meta_init 2 "B" [1] bodyB before_init_of_B = Ok st' ∧
    types_catalog st' 2 = Some cat ∧
    (∀ pre v post d fn, bodyB = pre ++ v :: post →
       entry_point_of v = Some (d, fn) →
       (∀ w fn', w ∈ post → entry_point_of w ≠ Some (d, fn')) →
       cat !! d = Some fn) ∧
    (∀ d, (∀ v fn, v ∈ bodyB → entry_point_of v ≠ Some (d, fn)) →
       cat !! d = default ∅ (types_catalog before_init_of_B 2) !! d) ∧
    (∀ d fn, cat !! d = Some fn →
       (∃ v, v ∈ bodyB ∧ entry_point_of v = Some (d, fn)) ∨
       default ∅ (types_catalog before_init_of_B 2) !! d = Some fn).
Proof.
  split; [vm_compute; exact I|]. split; [reflexivity|].
  apply (entry_points_overlay_inherited before_init_of_B 2
           (Class "B" [1; 0] ∅) "B" [1] bodyB);
    [vm_compute; exact I|reflexivity|discriminate].
Defined.

(** ** Which classes have catalogs *)

Lemma length_classes_after st cls :
  length (classes_after st cls) = length (classes st).
Proof.
  unfold classes_after.
  destruct (getattr st cls WORKFLOW_SIGNALS), (getattr st cls WORKFLOW_TYPES);
    by rewrite ?length_alter.
Qed.

Lemma class_stmt_resolved name bases dct st cls st' :
  wf st → older st →
  (∀ k c, classes st !! k = Some c → c_name c ≠ "WorkflowDefinition" →
     is_Some (getattr st k WORKFLOW_SIGNALS) ∧
     is_Some (getattr st k WORKFLOW_TYPES)) →
  class_stmt name bases dct st = Ok (cls, st') →
  ∀ k c, classes st' !! k = Some c → c_name c ≠ "WorkflowDefinition" →
    is_Some (getattr st' k WORKFLOW_SIGNALS) ∧
    is_Some (getattr st' k WORKFLOW_TYPES).
Proof.
  intros Hwf Ho Hall Hstep k c' Hc' Hname.
  destruct (decide (k < length (classes st))) as [Hk|Hk].
  { rewrite (class_stmt_classes _ _ _ _ _ _ k Hstep Hk) in Hc'.
    destruct (class_stmt_existing st name bases dct cls st' k Hwf Ho Hstep Hk)
      as (Hs & Ht & _).
    rewrite Hs, Ht. by apply (Hall k c'). }
  apply class_stmt_inv in Hstep as (st1 & Hnew & Hinit).
  pose proof (wf_type_new _ _ _ _ _ Hwf Hnew) as Hwf1.
  apply type_new_inv in Hnew as (anc & _ & -> & ->).
  set (c := Class name anc ∅) in *.
  set (st1 := State (classes st ++ [c]) _ _ _) in *.
  assert (classes st1 !! length (classes st) = Some c) as Hc
    by apply list_lookup_middle, eq_refl.
  assert (length (classes st1) = S (length (classes st))) as Hlen
    by (unfold st1; simpl; rewrite length_app; simpl; lia).
  destruct (decide (name = "WorkflowDefinition")) as [Hn|Hn].
  { rewrite (meta_init_base st1 _ c) in Hinit by done.
    injection Hinit as <-.
    assert (k = length (classes st)) as ->
      by (apply lookup_lt_Some in Hc'; lia).
    rewrite Hc in Hc'. injection Hc' as <-. done. }
  destruct (meta_init_spec st1 _ c name bases dct Hwf1 Hc Hn)
    as (st2 & Hm2 & _ & _ & Hsc & Htc & _).
  assert (st2 = st') as -> by congruence.
  rewrite (meta_init_explicit st1 _ c) in Hinit by done.
  injection Hinit as <-.
  assert (k = length (classes st)) as ->.
  { apply lookup_lt_Some in Hc'. unfold state_after in Hc'. simpl in Hc'.
    rewrite length_classes_after in Hc'. lia. }
  unfold signal_catalog, types_catalog in Hsc, Htc. split.
  - destruct (getattr (state_after _ _ _ _) _ WORKFLOW_SIGNALS);
      [by eexists|done].
  - destruct (getattr (state_after _ _ _ _) _ WORKFLOW_TYPES);
      [by eexists|done].
Qed.

Lemma reachable_resolved st :
  reachable st →
  ∀ k c, classes st !! k = Some c → c_name c ≠ "WorkflowDefinition" →
    is_Some (getattr st k WORKFLOW_SIGNALS) ∧
    is_Some (getattr st k WORKFLOW_TYPES).
Proof.
  induction 1 as [|st name bases dct cls st' Hr IH Hstep].
  - intros k c Hc Hn. destruct k; [|done]. by injection Hc as <-.
  - destruct (reachable_exclusive st Hr) as [_ Ho].
    by apply (class_stmt_resolved name bases dct st cls st'
                (reachable_wf st Hr) Ho IH).
Qed.

(** X9.  In every store that class statements build, every class whose
    name is not WorkflowDefinition has a signal catalog and an entry-point
    catalog: it gets them at its construction, and no later class statement
    takes them away. *)
Theorem named_classes_always_have_catalogs st k c :
  reachable st → classes st !! k = Some c →
  c_name c ≠ "WorkflowDefinition" →
  is_Some (signal_catalog st k) ∧ is_Some (types_catalog st k).
Proof.
  intros Hr Hc Hn. pose proof (reachable_wf st Hr) as Hwf.
  destruct (reachable_resolved st Hr k c Hc Hn) as [[ls Hs] [lt Ht]].
  unfold signal_catalog, types_catalog. rewrite Hs, Ht. simpl.
  split; apply lookup_lt_is_Some.
  - by apply (wf_getattr_signals st k).
  - by apply (wf_getattr_types st k).
Qed.

Lemma named_classes_always_have_catalogs_witness :
  reachable scenarioB_after ∧
  classes scenarioB_after !! 1
    = Some (Class "A" [0] {[WORKFLOW_SIGNALS := 0; WORKFLOW_TYPES := 0]}) ∧
  is_Some (signal_catalog scenarioB_after 1) ∧
  is_Some (types_catalog scenarioB_after 1).
Proof.
  assert (classes scenarioB_after !! 1
          = Some (Class "A" [0]
                    {[WORKFLOW_SIGNALS := 0; WORKFLOW_TYPES := 0]})) as Hc
    by (vm_compute; reflexivity).
  split; [exact scenarioB_reachable|]. split; [exact Hc|].
  apply (named_classes_always_have_catalogs scenarioB_after 1 _
           scenarioB_reachable Hc).
  discriminate.
Defined.

(** ** Instances: what the getters return *)

Lemma last_written_cons sel o ops x :
  default x (last_written sel (o :: ops))
  = default (default x (sel o)) (last_written sel ops).
Proof.
  unfold last_written. csimpl. destruct (sel o) as [v|]; [|done].
  simpl. rewrite last_cons. by destruct (last (omap sel ops)).
Qed.

Lemma run_ops_last_written ops e s r :
  ∃ self', run_ops ops (Instance (Some e) (Some s) (Some r)) = Ok self' ∧
    __workflow_execution self'
      = Some (default e (last_written written_execution ops)) ∧
    __workflow_state self' = Some (default s (last_written written_state ops)) ∧
    _workflow_result self'
      = Some (default r (last_written written_result ops)).
Proof.
  revert e s r. induction ops as [|o ops IH]; intros e s r.
  - eexists. by split_and!.
  - rewrite !last_written_cons.
    destruct o as [|v| |v| |v]; simpl; apply IH.
Qed.

(** X10.  After the constructor and any run of operations, every one of
    which returns, each getter gives the value that was last assigned to
    its attribute: the identity last assigned through the
    [workflow_execution] setter, or else the one passed to the constructor;
    the state last set, or else the empty string; the result last assigned,
    or else None.  An assignment to one attribute never shows in another. *)
Theorem getters_return_last_assignment (x : pyobj) (ops : list op) :
  ∃ self self', construct x = Ok self ∧ run_ops ops self = Ok self' ∧
    workflow_execution self'
      = Ok (default x (last_written written_execution ops)) ∧
    workflow_state self'
      = Ok (default (PyStr "") (last_written written_state ops)) ∧
    workflow_result self'
      = Ok (default PyNone (last_written written_result ops)).
Proof.
  destruct (run_ops_last_written ops x (PyStr "") PyNone)
    as (self' & Hrun & He & Hs & Hr).
  eexists _, self'. split; [reflexivity|]. split; [exact Hrun|].
  unfold workflow_execution, workflow_state, workflow_result.
  by rewrite He, Hs, Hr.
Qed.

Lemma run_ops_app ops1 ops2 self :
  run_ops (ops1 ++ ops2) self = run_ops ops1 self ≫= run_ops ops2.
Proof.
  revert self. induction ops1 as [|o ops1 IH]; intros self; [done|].
  simpl. destruct (apply_op self o) as [self1|e]; simpl; [apply IH|done].
Qed.

Lemma apply_op_raises self o e :
  apply_op self o = Raise e → e = AttributeError.
Proof.
  destruct o; simpl;
    unfold workflow_execution, workflow_state, workflow_result, read_attr;
    repeat case_match; simpl; congruence.
Qed.

Lemma run_ops_raises ops self e :
  run_ops ops self = Raise e → e = AttributeError.
Proof.
  revert self. induction ops as [|o ops IH]; intros self; [done|].
  simpl. destruct (apply_op self o) as [self1|e'] eqn:Ho; simpl.
  - apply IH.
  - intros [= <-]. by apply (apply_op_raises self o).
Qed.

Lemma run_ops_unwritten (sel : op → option pyobj)
    (proj : instance → option pyobj) ops self self' :
  (∀ s o s', apply_op s o = Ok s' → sel o = None → proj s' = proj s) →
  forallb (λ o, bool_decide (sel o = None)) ops →
  run_ops ops self = Ok self' → proj self' = proj self.
Proof.
  intros Hstep. revert self. induction ops as [|o ops IH]; intros self Hops H.
  - by injection H as <-.
  - simpl in Hops. apply andb_True in Hops as [Ho Hops].
    apply bool_decide_unpack in Ho. simpl in H.
    destruct (apply_op self o) as [self1|] eqn:H1; [|done]. simpl in H.
    rewrite (IH self1 Hops H). by apply (Hstep self o).
Qed.

Lemma apply_op_keeps self o self' :
  apply_op self o = Ok self' →
  (written_execution o = None →
   __workflow_execution self' = __workflow_execution self) ∧
  (written_state o = None → __workflow_state self' = __workflow_state self) ∧
  (written_result o = None → _workflow_result self' = _workflow_result self).
Proof.
  destruct o; simpl;
    unfold workflow_execution, workflow_state, workflow_result, read_attr;
    repeat case_match; simpl; intros [= <-]; by split_and!.
Qed.

(** X11.  On an object on which [__init__] has not run, a getter raises
    AttributeError as long as its attribute has not been assigned: a run of
    operations that reads the state (the identity, the result) with no
    assignment to it before ends in AttributeError, whatever else it
    does. *)
Theorem reading_before_assignment_raises (pre post : list op) :
  (forallb (λ o, bool_decide (written_execution o = None)) pre →
   run_ops (pre ++ GetExecution :: post) new_instance = Raise AttributeError) ∧
  (forallb (λ o, bool_decide (written_state o = None)) pre →
   run_ops (pre ++ GetState :: post) new_instance = Raise AttributeError) ∧
  (forallb (λ o, bool_decide (written_result o = None)) pre →
   run_ops (pre ++ GetResult :: post) new_instance = Raise AttributeError).
Proof.
  split_and!; intros Hpre; rewrite run_ops_app;
    destruct (run_ops pre new_instance) as [self|e] eqn:Hrun; simpl;
    try (by rewrite (run_ops_raises _ _ _ Hrun)).
  - pose proof (run_ops_unwritten written_execution __workflow_execution
                  pre new_instance self
                  (λ s o s' H, proj1 (apply_op_keeps s o s' H)) Hpre Hrun)
      as Hnone.
    unfold workflow_execution. by rewrite Hnone.
  - pose proof (run_ops_unwritten written_state __workflow_state
                  pre new_instance self
                  (λ s o s' H, proj1 (proj2 (apply_op_keeps s o s' H)))
                  Hpre Hrun) as Hnone.
    unfold workflow_state. by rewrite Hnone.
  - pose proof (run_ops_unwritten written_result _workflow_result
                  pre new_instance self
                  (λ s o s' H, proj2 (proj2 (apply_op_keeps s o s' H)))
                  Hpre Hrun) as Hnone.
    unfold workflow_result. by rewrite Hnone.
Qed.

Lemma reading_before_assignment_raises_witness :
  forallb (λ o, bool_decide (written_state o = None))
    [SetExecution identityC; GetExecution] ∧
  run_ops ([SetExecution identityC; GetExecution]
             ++ GetState :: [SetState (PyStr "started")]) new_instance
  = Raise AttributeError.
Proof.
  split; [exact I|].
  apply (proj1 (proj2 (reading_before_assignment_raises
                         [SetExecution identityC; GetExecution]
                         [SetState (PyStr "started")]))).
  exact I.
Defined.


(** * Metadata outside the classifier's contract *)

(** ** On members of the contract the two models agree *)








(** ** When [__init__] raises *)











(** ** Registration and errors *)



